(** * gojsonschema: the JSON loaders (jsonLoader.go)

    A shallow embedding of the loader strategies of jsonLoader.go together
    with the parts of Go's io, bytes and encoding/json packages the loaders
    run on: byte buffers and readers, the streaming Decoder with its scanner,
    and the construction of interface{} values with UseNumber set.

    Go strings are [string], byte slices are [list ascii] (one [ascii] per
    byte), a *bytes.Buffer is a location in a store of buffers. *)

From Stdlib Require Import ZArith NArith List Ascii String Bool Lia DecimalString.
From stdpp Require Import base option list gmap strings.
Import ListNotations.

Set Warnings "-register-all".

Local Open Scope string_scope.
Local Open Scope list_scope.

(** ** Bytes *)

Abbreviation byte := ascii.

Definition byteN (c : byte) : N := N_of_ascii c.

Definition byte_eqb (a b : byte) : bool := Ascii.eqb a b.

Definition in_range (lo hi c : byte) : bool :=
  (byteN lo <=? byteN c)%N && (byteN c <=? byteN hi)%N.

(** The double quote and the backslash, which string literals cannot spell. *)
Definition DQ : byte := "034"%char.
Definition BSL : byte := "092"%char.

Definition bytes_of (s : string) : list byte := list_ascii_of_string s.
Definition string_of (b : list byte) : string := string_of_list_ascii b.

(** [data[i:j]] *)
Definition slice {A} (l : list A) (i j : nat) : list A := firstn (j - i) (skipn i l).

(** ** Errors *)

Inductive error : Type :=
| EOF                                   (* io.EOF *)
| ErrUnexpectedEOF                      (* io.ErrUnexpectedEOF *)
| ErrShortWrite                         (* io.ErrShortWrite *)
| SyntaxError (c : byte) (context : string) (offset : Z)
    (* &json.SyntaxError{"invalid character " + quoteChar(c) + " " + context, offset} *)
| SyntaxErrorEOF (offset : Z)           (* "unexpected end of JSON input" *)
| MarshalError (msg : string)           (* any error of json.Marshal *)
| ReferenceError (msg : string)         (* any error of gojsonreference *)
| WriterError (msg : string)            (* any error of a caller's io.Writer *)
| Panic (msg : string).                 (* a panic, as the error the model reports *)

(** ** interface{} values

    The dynamic values the loaders hand around: what the decoder builds
    (nil, bool, json.Number, string, []interface{}, map[string]interface{}),
    the sources of the byte and native loaders ([]byte, integers) and values
    json.Marshal has no encoding for (functions). *)

Inductive any : Type :=
| Nil
| Bool (b : bool)
| Number (s : string)
| Str (s : string)
| Bytes (b : list byte)
| Int (z : Z)
| Slice (l : list any)
| Map (m : gmap string any)
| Func (id : nat).

(** A Go result pair [(interface{}, error)]. *)
Definition result : Type := any * option error.

(** ** bytes.Buffer, io.Reader, io.Writer *)

(** The store of buffers: a buffer is its unread bytes. *)
Abbreviation heap := (gmap nat (list byte)).

Definition buffer_bytes (h : heap) (b : nat) : list byte := default [] (h !! b).

(** [b.String()]: the unread portion of the buffer. *)
Definition Buffer_String (h : heap) (b : nat) : string := string_of (buffer_bytes h b).

(** [b.Write(p)]: appends, never fails. *)
Definition Buffer_Write (b : nat) (p : list byte) (h : heap) : (nat * option error) * heap :=
  ((length p, None), <[b := buffer_bytes h b ++ p]> h).

(** [b.Read(p)] with [len(p) = n]: the next [n] unread bytes are consumed;
    an empty buffer gives [io.EOF] unless [n = 0]. *)
Definition Buffer_Read (b : nat) (n : nat) (h : heap) : (list byte * option error) * heap :=
  match buffer_bytes h b with
  | [] => (([], if Nat.eqb n 0 then None else Some EOF), <[b := []]> h)
  | data => ((firstn n data, None), <[b := skipn n data]> h)
  end.

(** [&bytes.Buffer{}]: a location the store does not use yet. *)
Definition fresh (h : heap) : nat := fresh (dom h).

Definition new_buffer (h : heap) : nat * heap := (fresh h, <[fresh h := []]> h).

(** Readers: strings.Reader and bytes.Reader carry their unread bytes,
    a *bytes.Buffer reads from the store, io.TeeReader copies what it reads. *)
Inductive reader : Type :=
| StringsReader (unread : list byte)
| BytesReader (unread : list byte)
| BufferReader (b : nat)
| TeeReader (r : reader) (w : nat).

Definition read_unread (unread : list byte) (n : nat) : list byte * option error * list byte :=
  match unread with
  | [] => ([], Some EOF, [])
  | _ => (firstn n unread, None, skipn n unread)
  end.

(** [r.Read(p)] with [len(p) = n]. *)
Fixpoint Read (r : reader) (n : nat) (h : heap) : (list byte * option error) * reader * heap :=
  match r with
  | StringsReader u =>
      let '(p, e, u') := read_unread u n in ((p, e), StringsReader u', h)
  | BytesReader u =>
      let '(p, e, u') := read_unread u n in ((p, e), BytesReader u', h)
  | BufferReader b =>
      let '(pe, h') := Buffer_Read b n h in (pe, r, h')
  | TeeReader src w =>
      let '((p, e), src', h1) := Read src n h in
      match p with
      | [] => ((p, e), TeeReader src' w, h1)
      | _ =>
          let '((_, we), h2) := Buffer_Write w p h1 in
          match we with
          | Some err => ((p, Some err), TeeReader src' w, h2)
          | None => ((p, e), TeeReader src' w, h2)
          end
      end
  end.

(** Writers: a *bytes.Buffer, io.Discard, a writer that takes at most
    [room] bytes per call and reports a short count beyond that, a writer
    that fails, and io.MultiWriter. *)
Inductive writer : Type :=
| BufferWriter (b : nat)
| Discard
| LimitedWriter (room : nat)
| FailingWriter (msg : string)
| MultiWriter (ws : list writer).

(** [w.Write(p)] *)
Fixpoint Write (w : writer) (p : list byte) (h : heap) : (nat * option error) * heap :=
  match w with
  | BufferWriter b => Buffer_Write b p h
  | Discard => ((length p, None), h)
  | LimitedWriter room => ((Nat.min room (length p), None), h)
  | FailingWriter msg => ((0, Some (WriterError msg)), h)
  | MultiWriter ws =>
      (fix each (ws : list writer) (h : heap) : (nat * option error) * heap :=
         match ws with
         | [] => ((length p, None), h)
         | w :: ws' =>
             let '((n, e), h') := Write w p h in
             match e with
             | Some err => ((n, Some err), h')
             | None =>
                 if Nat.eqb n (length p) then each ws' h'
                 else ((n, Some ErrShortWrite), h')
             end
         end) ws h
  end.

(** ** encoding/json: the scanner (scanner.go)

    The scanner is a state machine fed one byte at a time: [step] names the
    current state function, [parseState] is the stack of open composites. *)

Inductive opcode : Type :=
| scanContinue | scanBeginLiteral | scanBeginObject | scanObjectKey
| scanObjectValue | scanEndObject | scanBeginArray | scanArrayValue
| scanEndArray | scanSkipSpace | scanEnd | scanError.

Inductive parse_state : Type := parseObjectKey | parseObjectValue | parseArrayValue.

Inductive state_fn : Type :=
| stateBeginValueOrEmpty | stateBeginValue | stateBeginStringOrEmpty
| stateBeginString | stateEndValue | stateEndTop
| stateInString | stateInStringEsc | stateInStringEscU | stateInStringEscU1
| stateInStringEscU12 | stateInStringEscU123
| stateNeg | state1 | state0 | stateDot | stateDot0 | stateE | stateESign | stateE0
| stateT | stateTr | stateTru | stateF | stateFa | stateFal | stateFals
| stateN | stateNu | stateNul | stateError.

Record scanner : Type := mkScanner {
  step : state_fn;
  endTop : bool;
  parseState : list parse_state;   (* innermost composite last *)
  err : option error;
  bytes : Z
}.

Definition maxNestingDepth : N := 10000.

Definition opcode_eqb (a b : opcode) : bool :=
  match a, b with
  | scanContinue, scanContinue | scanBeginLiteral, scanBeginLiteral
  | scanBeginObject, scanBeginObject | scanObjectKey, scanObjectKey
  | scanObjectValue, scanObjectValue | scanEndObject, scanEndObject
  | scanBeginArray, scanBeginArray | scanArrayValue, scanArrayValue
  | scanEndArray, scanEndArray | scanSkipSpace, scanSkipSpace
  | scanEnd, scanEnd | scanError, scanError => true
  | _, _ => false
  end.

Definition set_step (s : scanner) (f : state_fn) : scanner :=
  mkScanner f (endTop s) (parseState s) (err s) (bytes s).

Definition set_parseState (s : scanner) (ps : list parse_state) : scanner :=
  mkScanner (step s) (endTop s) ps (err s) (bytes s).

(** [s.reset()]; the byte count is kept. *)
Definition scanner_reset (s : scanner) : scanner :=
  mkScanner stateBeginValue false [] None (bytes s).

Definition new_scanner : scanner := mkScanner stateBeginValue false [] None 0.

(** [s.error(c, context)] *)
Definition scanner_error (s : scanner) (c : byte) (context : string) : scanner * opcode :=
  (mkScanner stateError (endTop s) (parseState s)
     (Some (SyntaxError c context (bytes s))) (bytes s), scanError).

Definition isSpace (c : byte) : bool :=
  (byteN c <=? 32)%N &&
  (byte_eqb c " "%char || byte_eqb c "009"%char || byte_eqb c "013"%char || byte_eqb c "010"%char).

Definition isDigit (c : byte) : bool := in_range "0"%char "9"%char c.
Definition isDigit19 (c : byte) : bool := in_range "1"%char "9"%char c.
Definition isHex (c : byte) : bool :=
  in_range "0"%char "9"%char c || in_range "a"%char "f"%char c || in_range "A"%char "F"%char c.

(** [s.pushParseState(c, newParseState, successState)] *)
Definition pushParseState (s : scanner) (c : byte) (p : parse_state) (success : opcode)
  : scanner * opcode :=
  let s' := set_parseState s (parseState s ++ [p]) in
  if (N.of_nat (length (parseState s')) <=? maxNestingDepth)%N then (s', success)
  else scanner_error s' c "exceeded max depth".

(** [s.popParseState()] *)
Definition popParseState (s : scanner) : scanner :=
  let ps := removelast (parseState s) in
  match ps with
  | [] => mkScanner stateEndTop true ps (err s) (bytes s)
  | _ => mkScanner stateEndValue (endTop s) ps (err s) (bytes s)
  end.

(** Overwrites the innermost parse state: [s.parseState[n-1] = p]. *)
Definition set_top (s : scanner) (p : parse_state) : scanner :=
  set_parseState s (removelast (parseState s) ++ [p]).

Definition do_stateEndTop (s : scanner) (c : byte) : scanner * opcode :=
  if isSpace c then (s, scanEnd)
  else (fst (scanner_error s c "after top-level value"), scanEnd).

Definition do_stateEndValue (s : scanner) (c : byte) : scanner * opcode :=
  match last (parseState s) with
  | None =>
      do_stateEndTop (mkScanner stateEndTop true (parseState s) (err s) (bytes s)) c
  | Some ps =>
      if isSpace c then (set_step s stateEndValue, scanSkipSpace)
      else match ps with
      | parseObjectKey =>
          if byte_eqb c ":"%char then
            (set_step (set_top s parseObjectValue) stateBeginValue, scanObjectKey)
          else scanner_error s c "after object key"
      | parseObjectValue =>
          if byte_eqb c ","%char then
            (set_step (set_top s parseObjectKey) stateBeginString, scanObjectValue)
          else if byte_eqb c "}"%char then (popParseState s, scanEndObject)
          else scanner_error s c "after object key:value pair"
      | parseArrayValue =>
          if byte_eqb c ","%char then (set_step s stateBeginValue, scanArrayValue)
          else if byte_eqb c "]"%char then (popParseState s, scanEndArray)
          else scanner_error s c "after array element"
      end
  end.

Definition do_stateBeginValue (s : scanner) (c : byte) : scanner * opcode :=
  if isSpace c then (s, scanSkipSpace)
  else if byte_eqb c "{"%char then
    pushParseState (set_step s stateBeginStringOrEmpty) c parseObjectKey scanBeginObject
  else if byte_eqb c "["%char then
    pushParseState (set_step s stateBeginValueOrEmpty) c parseArrayValue scanBeginArray
  else if byte_eqb c DQ then (set_step s stateInString, scanBeginLiteral)
  else if byte_eqb c "-"%char then (set_step s stateNeg, scanBeginLiteral)
  else if byte_eqb c "0"%char then (set_step s state0, scanBeginLiteral)
  else if byte_eqb c "t"%char then (set_step s stateT, scanBeginLiteral)
  else if byte_eqb c "f"%char then (set_step s stateF, scanBeginLiteral)
  else if byte_eqb c "n"%char then (set_step s stateN, scanBeginLiteral)
  else if isDigit19 c then (set_step s state1, scanBeginLiteral)
  else scanner_error s c "looking for beginning of value".

Definition do_stateBeginString (s : scanner) (c : byte) : scanner * opcode :=
  if isSpace c then (s, scanSkipSpace)
  else if byte_eqb c DQ then (set_step s stateInString, scanBeginLiteral)
  else scanner_error s c "looking for beginning of object key string".

(** One literal byte [want] leading to state [next]. *)
Definition expect (s : scanner) (c want : byte) (next : state_fn) (context : string)
  : scanner * opcode :=
  if byte_eqb c want then (set_step s next, scanContinue) else scanner_error s c context.

Definition do_state0 (s : scanner) (c : byte) : scanner * opcode :=
  if byte_eqb c "."%char then (set_step s stateDot, scanContinue)
  else if byte_eqb c "e"%char || byte_eqb c "E"%char then (set_step s stateE, scanContinue)
  else do_stateEndValue s c.

Definition do_stateESign (s : scanner) (c : byte) : scanner * opcode :=
  if isDigit c then (set_step s stateE0, scanContinue)
  else scanner_error s c "in exponent of numeric literal".

Definition hex_step (s : scanner) (c : byte) (next : state_fn) : scanner * opcode :=
  if isHex c then (set_step s next, scanContinue)
  else scanner_error s c "in \u hexadecimal character escape".

(** [s.step(s, c)] *)
Definition scan_step (s : scanner) (c : byte) : scanner * opcode :=
  match step s with
  | stateBeginValueOrEmpty =>
      if isSpace c then (s, scanSkipSpace)
      else if byte_eqb c "]"%char then do_stateEndValue s c
      else do_stateBeginValue s c
  | stateBeginValue => do_stateBeginValue s c
  | stateBeginStringOrEmpty =>
      if isSpace c then (s, scanSkipSpace)
      else if byte_eqb c "}"%char then do_stateEndValue (set_top s parseObjectValue) c
      else do_stateBeginString s c
  | stateBeginString => do_stateBeginString s c
  | stateEndValue => do_stateEndValue s c
  | stateEndTop => do_stateEndTop s c
  | stateInString =>
      if byte_eqb c DQ then (set_step s stateEndValue, scanContinue)
      else if byte_eqb c BSL then (set_step s stateInStringEsc, scanContinue)
      else if (byteN c <? 32)%N then scanner_error s c "in string literal"
      else (s, scanContinue)
  | stateInStringEsc =>
      if byte_eqb c "b"%char || byte_eqb c "f"%char || byte_eqb c "n"%char || byte_eqb c "r"%char
         || byte_eqb c "t"%char || byte_eqb c BSL || byte_eqb c "/"%char || byte_eqb c DQ
      then (set_step s stateInString, scanContinue)
      else if byte_eqb c "u"%char then (set_step s stateInStringEscU, scanContinue)
      else scanner_error s c "in string escape code"
  | stateInStringEscU => hex_step s c stateInStringEscU1
  | stateInStringEscU1 => hex_step s c stateInStringEscU12
  | stateInStringEscU12 => hex_step s c stateInStringEscU123
  | stateInStringEscU123 => hex_step s c stateInString
  | stateNeg =>
      if byte_eqb c "0"%char then (set_step s state0, scanContinue)
      else if isDigit19 c then (set_step s state1, scanContinue)
      else scanner_error s c "in numeric literal"
  | state1 =>
      if isDigit c then (set_step s state1, scanContinue) else do_state0 s c
  | state0 => do_state0 s c
  | stateDot =>
      if isDigit c then (set_step s stateDot0, scanContinue)
      else scanner_error s c "after decimal point in numeric literal"
  | stateDot0 =>
      if isDigit c then (s, scanContinue)
      else if byte_eqb c "e"%char || byte_eqb c "E"%char then (set_step s stateE, scanContinue)
      else do_stateEndValue s c
  | stateE =>
      if byte_eqb c "+"%char || byte_eqb c "-"%char then (set_step s stateESign, scanContinue)
      else do_stateESign s c
  | stateESign => do_stateESign s c
  | stateE0 =>
      if isDigit c then (s, scanContinue) else do_stateEndValue s c
  | stateT => expect s c "r"%char stateTr "in literal true (expecting 'r')"
  | stateTr => expect s c "u"%char stateTru "in literal true (expecting 'u')"
  | stateTru => expect s c "e"%char stateEndValue "in literal true (expecting 'e')"
  | stateF => expect s c "a"%char stateFa "in literal false (expecting 'a')"
  | stateFa => expect s c "l"%char stateFal "in literal false (expecting 'l')"
  | stateFal => expect s c "s"%char stateFals "in literal false (expecting 's')"
  | stateFals => expect s c "e"%char stateEndValue "in literal false (expecting 'e')"
  | stateN => expect s c "u"%char stateNu "in literal null (expecting 'u')"
  | stateNu => expect s c "l"%char stateNul "in literal null (expecting 'l')"
  | stateNul => expect s c "l"%char stateEndValue "in literal null (expecting 'l')"
  | stateError => (s, scanError)
  end.

(** [s.eof()] *)
Definition scanner_eof (s : scanner) : scanner * opcode :=
  match err s with
  | Some _ => (s, scanError)
  | None =>
      if endTop s then (s, scanEnd)
      else
        let s' := fst (scan_step s " "%char) in
        if endTop s' then (s', scanEnd)
        else match err s' with
             | Some _ => (s', scanError)
             | None =>
                 (mkScanner (step s') (endTop s') (parseState s')
                    (Some (SyntaxErrorEOF (bytes s'))) (bytes s'), scanError)
             end
  end.

(** ** encoding/json: the streaming Decoder (stream.go) *)

Record Decoder : Type := mkDecoder {
  d_r : reader;          (* dec.r *)
  d_buf : list byte;     (* dec.buf *)
  d_cap : nat;           (* cap(dec.buf) *)
  d_scanp : nat;         (* dec.scanp: start of unread data in buf *)
  d_scan : scanner;      (* dec.scan *)
  d_err : option error   (* dec.err *)
}.

(** [json.NewDecoder(r)] *)
Definition NewDecoder (r : reader) : Decoder := mkDecoder r [] 0 0 new_scanner None.

Definition minRead : nat := 512.

(** [dec.refill()]: slides the unread data down, grows the buffer when fewer
    than [minRead] bytes are free and reads once into the free space. *)
Definition refill (dec : Decoder) (h : heap) : Decoder * option error * heap :=
  let buf := skipn (d_scanp dec) (d_buf dec) in
  let cap :=
    if Nat.ltb (d_cap dec - length buf) minRead then 2 * d_cap dec + minRead
    else d_cap dec in
  let '((p, e), r', h') := Read (d_r dec) (cap - length buf) h in
  (mkDecoder r' (buf ++ p) cap 0 (d_scan dec) (d_err dec), e, h').

Definition bump (s : scanner) (k : Z) : scanner :=
  mkScanner (step s) (endTop s) (parseState s) (err s) (bytes s + k).

Inductive scanned : Type :=
| ScanEnd (scanp : nat) (s : scanner)     (* break Input *)
| ScanErr (s : scanner)                   (* case scanError *)
| ScanMore (scanp : nat) (s : scanner).   (* the buffer is used up *)

(** The inner loop of [readValue]: looks in the buffer for the end of a value;
    [bs] are the bytes from index [scanp] on. *)
Fixpoint scan_buffered (s : scanner) (bs : list byte) (scanp : nat) : scanned :=
  match bs with
  | [] => ScanMore scanp s
  | c :: bs' =>
      let '(s1, op) := scan_step (bump s 1) c in
      match op with
      | scanEnd => ScanEnd scanp (bump s1 (-1))
      | scanEndObject | scanEndArray =>
          let '(s2, op') := do_stateEndValue s1 " "%char in
          if opcode_eqb op' scanEnd then ScanEnd (S scanp) s2
          else scan_buffered s2 bs' (S scanp)
      | scanError => ScanErr s1
      | _ => scan_buffered s1 bs' (S scanp)
      end
  end.

Definition nonSpace (b : list byte) : bool := existsb (fun c => negb (isSpace c)) b.

Definition with_scan (dec : Decoder) (s : scanner) : Decoder :=
  mkDecoder (d_r dec) (d_buf dec) (d_cap dec) (d_scanp dec) s (d_err dec).

Definition with_err (dec : Decoder) (e : option error) : Decoder :=
  mkDecoder (d_r dec) (d_buf dec) (d_cap dec) (d_scanp dec) (d_scan dec) e.

(** The outer loop of [readValue]; [scanp] and [e] are its local variables
    (the scan position and the error of the last read). [None]: the fuel
    ran out. *)
Fixpoint readValue_loop (fuel : nat) (dec : Decoder) (scanp : nat) (e : option error)
  (h : heap) : option ((nat * option error) * Decoder * heap) :=
  match fuel with
  | O => None
  | S fuel' =>
      match scan_buffered (d_scan dec) (skipn scanp (d_buf dec)) scanp with
      | ScanEnd scanp' s => Some ((scanp' - d_scanp dec, None), with_scan dec s, h)
      | ScanErr s => Some ((0, err s), with_err (with_scan dec s) (err s), h)
      | ScanMore scanp' s =>
          let dec := with_scan dec s in
          match e with
          | Some EOF =>
              let '(s', op) := scan_step s " "%char in
              let dec := with_scan dec s' in
              if opcode_eqb op scanEnd then Some ((scanp' - d_scanp dec, None), dec, h)
              else
                let e' := if nonSpace (d_buf dec) then ErrUnexpectedEOF else EOF in
                Some ((0, Some e'), with_err dec (Some e'), h)
          | Some e' => Some ((0, Some e'), with_err dec (Some e'), h)
          | None =>
              let n := scanp' - d_scanp dec in
              let '(dec', e', h') := refill dec h in
              readValue_loop fuel' dec' (d_scanp dec' + n) e' h'
          end
      end
  end.

(** Unread bytes a reader can still deliver. *)
Fixpoint reader_size (r : reader) (h : heap) : nat :=
  match r with
  | StringsReader u | BytesReader u => length u
  | BufferReader b => length (buffer_bytes h b)
  | TeeReader src _ => reader_size src h
  end.

(** [dec.readValue()]: every refill but the last delivers at least one byte,
    so the loop runs at most [reader_size + 2] times. *)
Definition readValue (dec : Decoder) (h : heap) : option ((nat * option error) * Decoder * heap) :=
  readValue_loop (reader_size (d_r dec) h + 2)
    (with_scan dec (scanner_reset (d_scan dec))) (d_scanp dec) None h.

(** ** unicode/utf8, unicode/utf16 *)

Definition RuneError : N := 65533.

Definition byte_of (n : N) : byte := ascii_of_N (n mod 256).

Definition is_cont (c : byte) : bool := (128 <=? byteN c)%N && (byteN c <=? 191)%N.

Definition low6 (c : byte) : N := N.land (byteN c) 63.

(** [utf8.DecodeRune(p)]: the rune and its width; malformed input gives
    [(RuneError, 1)], empty input [(RuneError, 0)]. *)
Definition DecodeRune (p : list byte) : N * nat :=
  match p with
  | [] => (RuneError, 0)
  | b0 :: rest =>
      let n0 := byteN b0 in
      if (n0 <? 128)%N then (n0, 1)
      else if (194 <=? n0)%N && (n0 <=? 223)%N then
        match rest with
        | b1 :: _ =>
            if is_cont b1 then (N.lor (N.shiftl (N.land n0 31) 6) (low6 b1), 2)
            else (RuneError, 1)
        | _ => (RuneError, 1)
        end
      else if (224 <=? n0)%N && (n0 <=? 239)%N then
        match rest with
        | b1 :: b2 :: _ =>
            let lo := if (n0 =? 224)%N then 160%N else 128%N in
            let hi := if (n0 =? 237)%N then 159%N else 191%N in
            if (lo <=? byteN b1)%N && (byteN b1 <=? hi)%N && is_cont b2 then
              (N.lor (N.shiftl (N.land n0 15) 12)
                 (N.lor (N.shiftl (low6 b1) 6) (low6 b2)), 3)
            else (RuneError, 1)
        | _ => (RuneError, 1)
        end
      else if (240 <=? n0)%N && (n0 <=? 244)%N then
        match rest with
        | b1 :: b2 :: b3 :: _ =>
            let lo := if (n0 =? 240)%N then 144%N else 128%N in
            let hi := if (n0 =? 244)%N then 143%N else 191%N in
            if (lo <=? byteN b1)%N && (byteN b1 <=? hi)%N && is_cont b2 && is_cont b3 then
              (N.lor (N.shiftl (N.land n0 7) 18)
                 (N.lor (N.shiftl (low6 b1) 12)
                    (N.lor (N.shiftl (low6 b2) 6) (low6 b3))), 4)
            else (RuneError, 1)
        | _ => (RuneError, 1)
        end
      else (RuneError, 1)
  end.

Definition cont_of (r : N) (shift : N) : byte :=
  byte_of (N.lor 128 (N.land (N.shiftr r shift) 63)).

(** [utf8.EncodeRune]: the bytes of rune [r]; surrogates and runes beyond
    U+10FFFF are written as [RuneError]. *)
Definition EncodeRune (r : N) : list byte :=
  let r := if (1114111 <? r)%N || ((55296 <=? r)%N && (r <=? 57343)%N)
           then RuneError else r in
  if (r <=? 127)%N then [byte_of r]
  else if (r <=? 2047)%N then [byte_of (N.lor 192 (N.shiftr r 6)); cont_of r 0]
  else if (r <=? 65535)%N then
    [byte_of (N.lor 224 (N.shiftr r 12)); cont_of r 6; cont_of r 0]
  else [byte_of (N.lor 240 (N.shiftr r 18)); cont_of r 12; cont_of r 6; cont_of r 0].

(** [utf16.IsSurrogate] *)
Definition IsSurrogate (r : N) : bool := (55296 <=? r)%N && (r <? 57344)%N.

(** [utf16.DecodeRune(r1, r2)]; [r2 = None] is a second escape that did not
    parse (the rune -1). *)
Definition utf16_DecodeRune (r1 : N) (r2 : option N) : N :=
  match r2 with
  | Some r2 =>
      if (55296 <=? r1)%N && (r1 <? 56320)%N && (56320 <=? r2)%N && (r2 <? 57344)%N
      then (N.lor (N.shiftl (r1 - 55296) 10) (r2 - 56320) + 65536)%N
      else RuneError
  | None => RuneError
  end.

(** ** encoding/json: building the value (decode.go) *)

Definition hex_val (c : byte) : option N :=
  if in_range "0"%char "9"%char c then Some (byteN c - 48)%N
  else if in_range "a"%char "f"%char c then Some (byteN c - 97 + 10)%N
  else if in_range "A"%char "F"%char c then Some (byteN c - 65 + 10)%N
  else None.

(** [getu4(s)]: the rune of a leading [\uXXXX], [None] for -1. *)
Definition getu4 (s : list byte) : option N :=
  match s with
  | b :: u :: h1 :: h2 :: h3 :: h4 :: _ =>
      if byte_eqb b BSL && byte_eqb u "u"%char then
        match hex_val h1, hex_val h2, hex_val h3, hex_val h4 with
        | Some a, Some b, Some c, Some d => Some (((a * 16 + b) * 16 + c) * 16 + d)%N
        | _, _, _, _ => None
        end
      else None
  | _ => None
  end.

(** The copying loop of [unquoteBytes] over the bytes between the quotes.
    (The Go function first skips the prefix that needs no unquoting and
    returns the input itself when that is all of it; the loop leaves such
    bytes as they are.) *)
Fixpoint unquote_loop (fuel : nat) (s : list byte) : option (list byte) :=
  match fuel with
  | O => match s with [] => Some [] | _ => None end
  | S fuel' =>
      match s with
      | [] => Some []
      | c :: rest =>
          if byte_eqb c BSL then
            match rest with
            | [] => None
            | e :: rest' =>
                let simple (b : byte) := cons b <$> unquote_loop fuel' rest' in
                if byte_eqb e DQ || byte_eqb e BSL || byte_eqb e "/"%char || byte_eqb e "'"%char
                then simple e
                else if byte_eqb e "b"%char then simple "008"%char
                else if byte_eqb e "f"%char then simple "012"%char
                else if byte_eqb e "n"%char then simple "010"%char
                else if byte_eqb e "r"%char then simple "013"%char
                else if byte_eqb e "t"%char then simple "009"%char
                else if byte_eqb e "u"%char then
                  match getu4 s with
                  | None => None
                  | Some rr =>
                      let after := skipn 6 s in
                      if IsSurrogate rr then
                        let dec := utf16_DecodeRune rr (getu4 after) in
                        if negb (dec =? RuneError)%N then
                          app (EncodeRune dec) <$> unquote_loop fuel' (skipn 6 after)
                        else app (EncodeRune RuneError) <$> unquote_loop fuel' after
                      else app (EncodeRune rr) <$> unquote_loop fuel' after
                  end
                else None
            end
          else if byte_eqb c DQ || (byteN c <? 32)%N then None
          else if (byteN c <? 128)%N then cons c <$> unquote_loop fuel' rest
          else
            let '(rr, size) := DecodeRune s in
            app (EncodeRune rr) <$> unquote_loop fuel' (skipn size s)
      end
  end.

(** [unquote(s)]: the string a quoted literal stands for, [None] for [ok = false]. *)
Definition unquote (s : list byte) : option string :=
  match s with
  | q :: rest =>
      if Nat.ltb (length s) 2 || negb (byte_eqb q DQ)
         || negb (byte_eqb (List.last s "000"%char) DQ) then None
      else
        let inner := removelast rest in
        string_of <$> unquote_loop (length inner) inner
  | [] => None
  end.

Record decodeState : Type := mkDecodeState {
  data : list byte;
  off : nat;            (* next read offset in data *)
  opcode_ : opcode;     (* d.opcode: last read result *)
  scan : scanner
}.

(** [d.init(data)] *)
Definition decodeState_init (data : list byte) : decodeState :=
  mkDecodeState data 0 scanContinue new_scanner.

(** [d.readIndex()] *)
Definition readIndex (d : decodeState) : nat := off d - 1.

(** [d.scanNext()] *)
Definition scanNext (d : decodeState) : decodeState :=
  match data d !! off d with
  | Some c =>
      let '(s, op) := scan_step (scan d) c in
      mkDecodeState (data d) (S (off d)) op s
  | None =>
      let '(s, op) := scanner_eof (scan d) in
      mkDecodeState (data d) (S (length (data d))) op s
  end.

(** The loop of [d.scanWhile(op)] over the bytes [bs] from index [i] on:
    the first opcode other than [op], the index after its byte, the scanner;
    [None] when the bytes are used up. *)
Fixpoint scanWhile_loop (s : scanner) (bs : list byte) (i : nat) (op : opcode)
  : scanner * option (opcode * nat) :=
  match bs with
  | [] => (s, None)
  | c :: bs' =>
      let '(s', newOp) := scan_step s c in
      if opcode_eqb newOp op then scanWhile_loop s' bs' (S i) op
      else (s', Some (newOp, S i))
  end.

(** [d.scanWhile(op)] *)
Definition scanWhile (d : decodeState) (op : opcode) : decodeState :=
  match scanWhile_loop (scan d) (skipn (off d) (data d)) (off d) op with
  | (s, Some (newOp, i)) => mkDecodeState (data d) i newOp s
  | (s, None) =>
      let '(s', op') := scanner_eof s in
      mkDecodeState (data d) (S (length (data d))) op' s'
  end.

Definition isNumberByte (c : byte) : bool :=
  in_range "0"%char "9"%char c || byte_eqb c "."%char || byte_eqb c "e"%char || byte_eqb c "E"%char
  || byte_eqb c "+"%char || byte_eqb c "-"%char.

(** The string case of [rescanLiteral]: the index after the closing quote
    (or past the end); [bs] are the bytes from index [i] on. *)
Fixpoint rescan_string (bs : list byte) (i : nat) : nat :=
  match bs with
  | [] => i
  | c :: bs' =>
      if byte_eqb c DQ then S i
      else if byte_eqb c BSL then
        match bs' with
        | [] => S (S i)
        | _ :: bs'' => rescan_string bs'' (S (S i))
        end
      else rescan_string bs' (S i)
  end.

(** The number case of [rescanLiteral]: the index of the first byte that
    cannot be part of a number. *)
Fixpoint rescan_number (bs : list byte) (i : nat) : nat :=
  match bs with
  | [] => i
  | c :: bs' => if isNumberByte c then rescan_number bs' (S i) else i
  end.

(** [d.rescanLiteral()]: called with [d.off] after the first byte of a
    literal, moves past it and reads the opcode that follows. *)
Definition rescanLiteral (d : decodeState) : decodeState :=
  let rest := skipn (off d) (data d) in
  let i :=
    match data d !! (off d - 1) with
    | Some c =>
        if byte_eqb c DQ then rescan_string rest (off d)
        else if in_range "0"%char "9"%char c || byte_eqb c "-"%char then rescan_number rest (off d)
        else if byte_eqb c "t"%char then off d + 3
        else if byte_eqb c "f"%char then off d + 4
        else if byte_eqb c "n"%char then off d + 3
        else off d
    | None => off d
    end in
  match data d !! i with
  | Some c =>
      let '(s, op) := do_stateEndValue (scan d) c in
      mkDecodeState (data d) (S i) op s
  | None => mkDecodeState (data d) (S i) scanEnd (scan d)
  end.

(** [d.convertNumber(s)] of a decoder on which UseNumber was called: the
    literal itself as a json.Number. *)
Definition convertNumber (s : string) : any * option error := (Number s, None).

(** [d.literalInterface()]; [None] stands for [panic(phasePanicMsg)]. *)
Definition literalInterface (d : decodeState) : option (any * decodeState) :=
  let start := readIndex d in
  let d' := rescanLiteral d in
  let item := slice (data d') start (readIndex d') in
  match item with
  | [] => None
  | c :: _ =>
      if byte_eqb c "n"%char then Some (Nil, d')
      else if byte_eqb c "t"%char || byte_eqb c "f"%char then Some (Bool (byte_eqb c "t"%char), d')
      else if byte_eqb c DQ then
        match unquote item with
        | Some s => Some (Str s, d')
        | None => None
        end
      else if negb (byte_eqb c "-"%char) && negb (in_range "0"%char "9"%char c) then None
      else Some (fst (convertNumber (string_of item)), d')
  end.

Definition skip_space (d : decodeState) : decodeState :=
  if opcode_eqb (opcode_ d) scanSkipSpace then scanWhile d scanSkipSpace else d.

(** [d.valueInterface()], [d.arrayInterface()] and [d.objectInterface()];
    the two loops carry the slice and the map built so far. [None] stands
    for [panic(phasePanicMsg)] (and for fuel that ran out). *)
Fixpoint valueInterface (fuel : nat) (d : decodeState) : option (any * decodeState) :=
  match fuel with
  | O => None
  | S fuel' =>
      match opcode_ d with
      | scanBeginArray =>
          match arrayInterface fuel' [] d with
          | Some (v, d') => Some (Slice v, scanNext d')
          | None => None
          end
      | scanBeginObject =>
          match objectInterface fuel' ∅ d with
          | Some (m, d') => Some (Map m, scanNext d')
          | None => None
          end
      | scanBeginLiteral => literalInterface d
      | _ => None
      end
  end
with arrayInterface (fuel : nat) (v : list any) (d : decodeState)
  : option (list any * decodeState) :=
  match fuel with
  | O => None
  | S fuel' =>
      let d := scanWhile d scanSkipSpace in
      if opcode_eqb (opcode_ d) scanEndArray then Some (v, d)
      else
        match valueInterface fuel' d with
        | None => None
        | Some (x, d) =>
            let v := v ++ [x] in
            let d := skip_space d in
            if opcode_eqb (opcode_ d) scanEndArray then Some (v, d)
            else if opcode_eqb (opcode_ d) scanArrayValue then arrayInterface fuel' v d
            else None
        end
  end
with objectInterface (fuel : nat) (m : gmap string any) (d : decodeState)
  : option (gmap string any * decodeState) :=
  match fuel with
  | O => None
  | S fuel' =>
      let d := scanWhile d scanSkipSpace in
      if opcode_eqb (opcode_ d) scanEndObject then Some (m, d)
      else if negb (opcode_eqb (opcode_ d) scanBeginLiteral) then None
      else
        let start := readIndex d in
        let d := rescanLiteral d in
        match unquote (slice (data d) start (readIndex d)) with
        | None => None
        | Some key =>
            let d := skip_space d in
            if negb (opcode_eqb (opcode_ d) scanObjectKey) then None
            else
              let d := scanWhile d scanSkipSpace in
              match valueInterface fuel' d with
              | None => None
              | Some (x, d) =>
                  let m := <[key := x]> m in
                  let d := skip_space d in
                  if opcode_eqb (opcode_ d) scanEndObject then Some (m, d)
                  else if opcode_eqb (opcode_ d) scanObjectValue then objectInterface fuel' m d
                  else None
              end
        end
  end.

(** The panic of a decodeState that lost step with its scanner. *)
Definition phasePanic : error := Panic "JSON decoder out of sync - data changing underfoot?".

(** [d.unmarshal(&document)] for [var document interface{}]: [d.value]
    on an interface{} target does what [valueInterface] does. A value and
    a loop turn each take at least one byte, so twice the length of the
    data is fuel enough ([interfaces_fuel], [unmarshal_fuel]). *)
Definition unmarshal (d : decodeState) : any * option error :=
  let d := mkDecodeState (data d) (off d) (opcode_ d) (scanner_reset (scan d)) in
  let d := scanWhile d scanSkipSpace in
  match valueInterface (2 * length (data d) + 1) d with
  | Some (v, _) => (v, None)
  | None => (Nil, Some phasePanic)
  end.

(** [dec.Decode(&document)] on a decoder with UseNumber set. The fuel of
    [readValue] does not run out on a string, byte or buffer reader
    ([readValue_fresh]); the model reports it like a panic. *)
Definition Decode (dec : Decoder) (h : heap) : (any * option error) * Decoder * heap :=
  match d_err dec with
  | Some e => ((Nil, Some e), dec, h)
  | None =>
      match readValue dec h with
      | None => ((Nil, Some phasePanic), dec, h)
      | Some ((_, Some e), dec', h') => ((Nil, Some e), dec', h')
      | Some ((n, None), dec', h') =>
          let d := decodeState_init (slice (d_buf dec') (d_scanp dec') (d_scanp dec' + n)) in
          let dec'' := mkDecoder (d_r dec') (d_buf dec') (d_cap dec') (d_scanp dec' + n)
                         (d_scan dec') (d_err dec') in
          (unmarshal d, dec'', h')
      end
  end.

(** ** jsonLoader.go *)

Inductive JSONLoaderFactory : Type :=
| DefaultJSONLoaderFactory
| FileSystemJSONLoaderFactory.

Inductive JSONLoader : Type :=
| jsonReferenceLoader (source : string)
| jsonStringLoader (source : string)
| jsonBytesLoader (source : list byte)
| jsonGoLoader (source : any)
| jsonIOLoader (buf : nat)
| jsonRawLoader (source : any).

(** The strategies of the loader contract. *)
Inductive strategy : Type :=
| Location | Text | Binary | NativeValue | Streaming | PreDecoded.

Definition strategy_of (l : JSONLoader) : strategy :=
  match l with
  | jsonReferenceLoader _ => Location
  | jsonStringLoader _ => Text
  | jsonBytesLoader _ => Binary
  | jsonGoLoader _ => NativeValue
  | jsonIOLoader _ => Streaming
  | jsonRawLoader _ => PreDecoded
  end.

(** [DefaultJSONLoaderFactory.New] and [FileSystemJSONLoaderFactory.New] *)
Definition New (f : JSONLoaderFactory) (source : string) : JSONLoader :=
  match f with
  | DefaultJSONLoaderFactory => jsonReferenceLoader source
  | FileSystemJSONLoaderFactory => jsonReferenceLoader source
  end.

Definition NewReferenceLoader (source : string) : JSONLoader := jsonReferenceLoader source.
Definition NewStringLoader (source : string) : JSONLoader := jsonStringLoader source.
Definition NewBytesLoader (source : list byte) : JSONLoader := jsonBytesLoader source.
Definition NewGoLoader (source : any) : JSONLoader := jsonGoLoader source.
Definition NewRawLoader (source : any) : JSONLoader := jsonRawLoader source.

Definition NewReaderLoader (source : reader) (h : heap) : (JSONLoader * reader) * heap :=
  let '(buf, h') := new_buffer h in
  ((jsonIOLoader buf, TeeReader source buf), h').

Definition NewWriterLoader (source : writer) (h : heap) : (JSONLoader * writer) * heap :=
  let '(buf, h') := new_buffer h in
  ((jsonIOLoader buf, MultiWriter [source; BufferWriter buf]), h').

Definition JsonSource (l : JSONLoader) (h : heap) : any :=
  match l with
  | jsonReferenceLoader source => Str source
  | jsonStringLoader source => Str source
  | jsonBytesLoader source => Bytes source
  | jsonGoLoader source => source
  | jsonIOLoader buf => Str (Buffer_String h buf)
  | jsonRawLoader source => source
  end.

Definition LoaderFactory (l : JSONLoader) : JSONLoaderFactory :=
  match l with
  | jsonReferenceLoader _ => FileSystemJSONLoaderFactory
  | _ => DefaultJSONLoaderFactory
  end.

(** [decodeJSONUsingNumber(r)]: a fresh decoder on [r], [UseNumber], one
    [Decode]; the decoder is dropped, what it read stays read. *)
Definition decodeJSONUsingNumber (r : reader) (h : heap) : result * heap :=
  let decoder := NewDecoder r in
  let '((document, e), _, h') := Decode decoder h in
  match e with
  | Some e => ((Nil, Some e), h')
  | None => ((document, None), h')
  end.

Section Loaders.

(** The two library calls whose results the loaders pass on untouched:
    [json.Marshal] and [gojsonreference.NewJsonReference]. *)
Variable Marshal : any -> list byte * option error.
Variable JsonReferenceT : Type.
Variable NewJsonReference : string -> JsonReferenceT * option error.

Definition JsonReference (l : JSONLoader) : JsonReferenceT * option error :=
  match l with
  | jsonReferenceLoader source => NewJsonReference source
  | _ => NewJsonReference "#"
  end.

Definition LoadJSON (l : JSONLoader) (h : heap) : result * heap :=
  match l with
  | jsonReferenceLoader _ => ((Nil, None), h)
  | jsonStringLoader source => decodeJSONUsingNumber (StringsReader (bytes_of source)) h
  | jsonBytesLoader source => decodeJSONUsingNumber (BytesReader source) h
  | jsonGoLoader source =>
      let '(jsonBytes, e) := Marshal source in
      match e with
      | Some e => ((Nil, Some e), h)
      | None => decodeJSONUsingNumber (BytesReader jsonBytes) h
      end
  | jsonIOLoader buf => decodeJSONUsingNumber (BufferReader buf) h
  | jsonRawLoader source => ((source, None), h)
  end.

End Loaders.

(** JSON text in source form: [quoted s] is [s] with every ['] replaced by
    a double quote. *)
Definition quoted (s : string) : list byte :=
  map (fun c => if byte_eqb c "'"%char then DQ else c) (bytes_of s).

(** ** The decoder as a function of the bytes it is given

    [strings.Reader], [bytes.Reader] and [*bytes.Buffer] hand out their
    unread bytes in order; what [Decode] returns depends on those bytes
    alone, not on how the reads cut them up. *)

Definition simple (r : reader) : Prop :=
  match r with TeeReader _ _ => False | _ => True end.

Definition unread (r : reader) (h : heap) : list byte :=
  match r with
  | StringsReader u | BytesReader u => u
  | BufferReader b => buffer_bytes h b
  | TeeReader _ _ => []
  end.

(** The reader and the store once the unread bytes are [u]. *)
Definition set_unread (r : reader) (u : list byte) (h : heap) : reader * heap :=
  match r with
  | StringsReader _ => (StringsReader u, h)
  | BytesReader _ => (BytesReader u, h)
  | BufferReader b => (r, <[b := u]> h)
  | TeeReader _ _ => (r, h)
  end.

(** The result of [readValue] on a scanner state [s], [pending] buffered
    bytes after index [scanp] and [rest] bytes still to come. *)
Definition readValue_bytes (s : scanner) (all : list byte) (pending : list byte) (scanp : nat)
  : nat * option error :=
  match scan_buffered s pending scanp with
  | ScanEnd n _ => (n, None)
  | ScanErr s' => (0, err s')
  | ScanMore n s' =>
      if opcode_eqb (snd (scan_step s' " "%char)) scanEnd then (n, None)
      else (0, Some (if nonSpace all then ErrUnexpectedEOF else EOF))
  end.

(** [decodeJSONUsingNumber] on a reader whose bytes are [u]. *)
Definition decode_bytes (u : list byte) : result :=
  match readValue_bytes new_scanner u u 0 with
  | (_, Some e) => (Nil, Some e)
  | (n, None) =>
      match unmarshal (decodeState_init (firstn n u)) with
      | (_, Some e) => (Nil, Some e)
      | (v, None) => (v, None)
      end
  end.

(** ** What the properties speak of *)





(** The buffers a writer can write to. *)
Fixpoint writer_locs (w : writer) : list nat :=
  match w with
  | BufferWriter b => [b]
  | MultiWriter ws => flat_map writer_locs ws
  | _ => []
  end.

(** Writes of the byte slices [ps], one after the other, up to the first
    that reports an error. *)
Fixpoint write_all (w : writer) (ps : list (list byte)) (h : heap) : option error * heap :=
  match ps with
  | [] => (None, h)
  | p :: ps' =>
      let '((_, e), h') := Write w p h in
      match e with
      | Some e => (Some e, h')
      | None => write_all w ps' h'
      end
  end.

(** The buffers a reader can read from or copy to. *)
Fixpoint reader_locs (r : reader) : list nat :=
  match r with
  | BufferReader b => [b]
  | TeeReader src w => w :: reader_locs src
  | _ => []
  end.


(** The bytes a loader hands to the value decoder: the text of a Text
    loader, the bytes of a Binary loader, the serialized native value, the
    captured bytes of a streaming loader. *)
Definition decoder_input (Marshal : any -> list byte * option error)
  (l : JSONLoader) (h : heap) : option (list byte) :=
  match l with
  | jsonStringLoader source => Some (bytes_of source)
  | jsonBytesLoader source => Some source
  | jsonGoLoader source =>
      match Marshal source with
      | (jsonBytes, None) => Some jsonBytes
      | (_, Some _) => None
      end
  | jsonIOLoader buf => Some (buffer_bytes h buf)
  | _ => None
  end.



(** *** Instances of the two library calls, to run the loaders on *)

(** [isValidNumber] of encoding/json (encode.go). *)
Fixpoint skip_digits (s : list byte) : list byte :=
  match s with
  | c :: s' => if isDigit c then skip_digits s' else s
  | [] => []
  end.

Definition isValidNumber (s : list byte) : bool :=
  match s with
  | [] => false
  | c0 :: t0 =>
      let s1 := if byte_eqb c0 "-"%char then t0 else s in
      match s1 with
      | [] => false
      | c :: t =>
          let digits :=
            if byte_eqb c "0"%char then Some t
            else if isDigit19 c then Some (skip_digits t)
            else None in
          match digits with
          | None => false
          | Some s2 =>
              let s3 :=
                match s2 with
                | p :: d :: t' =>
                    if byte_eqb p "."%char && isDigit d then skip_digits t' else s2
                | _ => s2
                end in
              let s4 :=
                match s3 with
                | e :: x :: t' =>
                    if byte_eqb e "e"%char || byte_eqb e "E"%char then
                      if byte_eqb x "+"%char || byte_eqb x "-"%char then
                        match t' with
                        | [] => None
                        | _ => Some (skip_digits t')
                        end
                      else Some (skip_digits (x :: t'))
                    else Some s3
                | _ => Some s3
                end in
              match s4 with
              | Some [] => true
              | _ => false
              end
          end
      end
  end.

(** json.Marshal on nil, booleans, integers, json.Numbers and slices of
    these; functions have no encoding. Strings, byte slices and maps are
    left out of this instance and reported like functions. *)
Fixpoint Marshal_plain (v : any) : list byte * option error :=
  match v with
  | Nil => (bytes_of "null", None)
  | Bool b => (bytes_of (if b then "true" else "false"), None)
  | Int z => (bytes_of (NilZero.string_of_int (Z.to_int z)), None)
  | Number s =>
      let numStr := if String.eqb s "" then "0" else s in
      if isValidNumber (bytes_of numStr) then (bytes_of numStr, None)
      else ([], Some (MarshalError "json: invalid number literal"))
  | Slice l =>
      let encoded :=
        fold_right (fun x acc =>
          match Marshal_plain x, acc with
          | (b, None), (bs, None) => (b :: bs, None)
          | (_, Some e), _ => ([], Some e)
          | _, (_, Some e) => ([], Some e)
          end) ([], None) l in
      match encoded with
      | (bs, None) =>
          (bytes_of "[" ++ concat (match bs with
                                   | [] => []
                                   | b :: bs' => b :: map (app (bytes_of ",")) bs'
                                   end) ++ bytes_of "]", None)
      | (_, Some e) => ([], Some e)
      end
  | _ => ([], Some (MarshalError "json: unsupported type"))
  end.



(** Bytes of the data a decodeState has still to read (one more than that
    before the end of the data was reported). *)
Definition bytes_left (d : decodeState) : nat := S (length (data d)) - off d.

Definition at_end (op : opcode) : Prop := op = scanEnd \/ op = scanError.

(** ** What the further properties speak of *)

(** Reads through [r] into buffers of the sizes [ns], one after the other:
    what each read returned. *)
Fixpoint read_seq (r : reader) (ns : list nat) (h : heap)
  : list (list byte * option error) * reader * heap :=
  match ns with
  | [] => ([], r, h)
  | n :: ns' =>
      let '(pe, r', h') := Read r n h in
      let '(outs, r'', h'') := read_seq r' ns' h' in
      (pe :: outs, r'', h'')
  end.

(** The bytes a sequence of reads delivered. *)
Definition delivered (outs : list (list byte * option error)) : list byte :=
  concat (map fst outs).

(** A text of nothing but JSON whitespace (or nothing at all). *)
Definition blank (u : list byte) : bool := forallb isSpace u.

(** The error is a json.SyntaxError about a byte of the input. *)
Definition is_syntax (e : option error) : Prop :=
  match e with
  | Some (SyntaxError _ _ _) => True
  | _ => False
  end.

(** A scanner in its error state has recorded a syntax error. *)
Definition scanner_ok (s : scanner) : Prop := step s = stateError -> is_syntax (err s).

(** The canonical JSON values: nil, booleans, json.Numbers, strings, and
    slices and maps of canonical values. *)
Inductive canonical : any -> Prop :=
| canonical_nil : canonical Nil
| canonical_bool (b : bool) : canonical (Bool b)
| canonical_number (s : string) : canonical (Number s)
| canonical_str (s : string) : canonical (Str s)
| canonical_slice (l : list any) : Forall canonical l -> canonical (Slice l)
| canonical_map (m : gmap string any) :
    (forall k v, m !! k = Some v -> canonical v) -> canonical (Map m).

(** The scanner's walk through a number literal: the state after byte [c]
    in state [st], as long as the literal goes on. *)
Definition number_next (st : state_fn) (c : byte) : option state_fn :=
  let after_int :=
    if byte_eqb c "."%char then Some stateDot
    else if byte_eqb c "e"%char || byte_eqb c "E"%char then Some stateE
    else None in
  let first :=
    if byte_eqb c "0"%char then Some state0
    else if isDigit19 c then Some state1
    else None in
  match st with
  | stateBeginValue => if byte_eqb c "-"%char then Some stateNeg else first
  | stateNeg => first
  | state1 => if isDigit c then Some state1 else after_int
  | state0 => after_int
  | stateDot => if isDigit c then Some stateDot0 else None
  | stateDot0 =>
      if isDigit c then Some stateDot0
      else if byte_eqb c "e"%char || byte_eqb c "E"%char then Some stateE
      else None
  | stateE =>
      if byte_eqb c "+"%char || byte_eqb c "-"%char then Some stateESign
      else if isDigit c then Some stateE0
      else None
  | stateESign => if isDigit c then Some stateE0 else None
  | stateE0 => if isDigit c then Some stateE0 else None
  | _ => None
  end.

Fixpoint number_run (st : state_fn) (u : list byte) : option state_fn :=
  match u with
  | [] => Some st
  | c :: u' =>
      match number_next st c with
      | Some st' => number_run st' u'
      | None => None
      end
  end.

(** The states in which a number literal may end. *)
Definition number_done (st : state_fn) : bool :=
  match st with
  | state0 | state1 | stateDot0 | stateE0 => true
  | _ => false
  end.
(** [isValidNumber] in its three parts: the exponent, the fraction before
    it, the integer digits before that. *)
Definition exponent_ok (s3 : list byte) : bool :=
  match
    match s3 with
    | e :: x :: t' =>
        if byte_eqb e "e"%char || byte_eqb e "E"%char then
          if byte_eqb x "+"%char || byte_eqb x "-"%char then
            match t' with
            | [] => None
            | _ => Some (skip_digits t')
            end
          else Some (skip_digits (x :: t'))
        else Some s3
    | _ => Some s3
    end
  with
  | Some [] => true
  | _ => false
  end.

Definition fraction_ok (s2 : list byte) : bool :=
  exponent_ok
    match s2 with
    | p :: d :: t' => if byte_eqb p "."%char && isDigit d then skip_digits t' else s2
    | _ => s2
    end.

Definition unsigned_ok (s1 : list byte) : bool :=
  match s1 with
  | [] => false
  | c :: t =>
      match (if byte_eqb c "0"%char then Some t
             else if isDigit19 c then Some (skip_digits t)
             else None) with
      | None => false
      | Some s2 => fraction_ok s2
      end
  end.

(** ** Readers *)

Lemma unread_set_unread r u h :
  simple r -> unread (set_unread r u h).1 (set_unread r u h).2 = u.
Proof.
  destruct r as [u0|u0|b|]; try done.
  intros _. unfold unread, set_unread, buffer_bytes; simpl.
  by rewrite lookup_insert_eq.
Qed.

Lemma simple_set_unread r u h : simple r -> simple (set_unread r u h).1.
Proof. by destruct r. Qed.

Lemma set_unread_twice r u u' h :
  set_unread (set_unread r u h).1 u' (set_unread r u h).2 = set_unread r u' h.
Proof. destruct r; simpl; try done. by rewrite insert_insert_eq. Qed.

Lemma Read_simple r n h :
  simple r -> 0 < n ->
  Read r n h =
    ((firstn n (unread r h), if unread r h is [] then Some EOF else None),
     (set_unread r (skipn n (unread r h)) h).1,
     (set_unread r (skipn n (unread r h)) h).2).
Proof.
  intros Hs Hn. destruct r as [u|u|b|]; simpl in *; try done.
  - destruct u; simpl; [by rewrite ?firstn_nil, ?skipn_nil|done].
  - destruct u; simpl; [by rewrite ?firstn_nil, ?skipn_nil|done].
  - unfold Buffer_Read. destruct (buffer_bytes h b) eqn:E.
    + rewrite firstn_nil, skipn_nil. destruct n; [lia|done].
    + done.
Qed.

(** ** The scan of a buffer *)

Lemma scan_buffered_app s a b i :
  scan_buffered s (a ++ b) i =
    match scan_buffered s a i with
    | ScanMore j s' => scan_buffered s' b j
    | r => r
    end.
Proof.
  revert s i. induction a as [|c a IH]; intros s i; simpl; [done|].
  destruct (scan_step (bump s 1) c) as [s1 op].
  destruct op; try apply IH; try done;
    destruct (do_stateEndValue s1 " "%char) as [s2 op'];
    destruct (opcode_eqb op' scanEnd); try done; apply IH.
Qed.

Lemma scan_buffered_more s bs i n s' :
  scan_buffered s bs i = ScanMore n s' -> n = i + length bs.
Proof.
  revert s i. induction bs as [|c bs IH]; intros s i; simpl.
  - intros [= <- _]. lia.
  - destruct (scan_step (bump s 1) c) as [s1 op].
    destruct op; try (intros H; apply IH in H; lia); try done;
      destruct (do_stateEndValue s1 " "%char) as [s2 op'];
      destruct (opcode_eqb op' scanEnd); try done;
      intros H; apply IH in H; lia.
Qed.

Lemma scan_buffered_end s bs i n s' :
  scan_buffered s bs i = ScanEnd n s' -> i <= n <= i + length bs.
Proof.
  revert s i. induction bs as [|c bs IH]; intros s i; simpl; [done|].
  destruct (scan_step (bump s 1) c) as [s1 op].
  destruct op; try (intros H; apply IH in H; lia); try done;
    try (intros [= <- _]; lia);
    destruct (do_stateEndValue s1 " "%char) as [s2 op'];
    destruct (opcode_eqb op' scanEnd); try (intros [= <- _]; lia);
    intros H; apply IH in H; lia.
Qed.

(** ** [readValue] reads the value the bytes hold *)

Lemma refill_simple dec h :
  simple (d_r dec) -> d_scanp dec = 0 -> length (d_buf dec) <= d_cap dec ->
  exists k cap, 0 < k /\ length (d_buf dec) + k = cap /\
    refill dec h =
      (mkDecoder (set_unread (d_r dec) (skipn k (unread (d_r dec) h)) h).1
         (d_buf dec ++ firstn k (unread (d_r dec) h)) cap 0 (d_scan dec) (d_err dec),
       if unread (d_r dec) h is [] then Some EOF else None,
       (set_unread (d_r dec) (skipn k (unread (d_r dec) h)) h).2).
Proof.
  intros Hs Hp Hc. unfold refill. rewrite Hp, !drop_0.
  set (cap := if Nat.ltb _ _ then _ else _).
  assert (Hk : 0 < cap - length (d_buf dec)).
  { subst cap. unfold minRead. destruct (Nat.ltb_spec (d_cap dec - length (d_buf dec)) 512); lia. }
  exists (cap - length (d_buf dec)), cap. split; [done|]. split; [lia|].
  by rewrite (Read_simple _ _ _ Hs Hk).
Qed.

Lemma readValue_loop_spec fuel : forall dec scanp e h,
  simple (d_r dec) -> d_scanp dec = 0 -> length (d_buf dec) <= d_cap dec ->
  scanp <= length (d_buf dec) ->
  (e = None \/ e = Some EOF /\ unread (d_r dec) h = []) ->
  length (unread (d_r dec) h) + (if e is Some _ then 1 else 2) <= fuel ->
  exists dec' h' consumed remaining,
    readValue_loop fuel dec scanp e h =
      Some (readValue_bytes (d_scan dec) (d_buf dec ++ unread (d_r dec) h)
              (skipn scanp (d_buf dec) ++ unread (d_r dec) h) scanp, dec', h') /\
    unread (d_r dec) h = consumed ++ remaining /\
    d_buf dec' = d_buf dec ++ consumed /\
    d_scanp dec' = 0 /\
    ((d_r dec', h') = (d_r dec, h) /\ consumed = [] \/
     (d_r dec', h') = set_unread (d_r dec) remaining h) /\
    (forall n, readValue_bytes (d_scan dec) (d_buf dec ++ unread (d_r dec) h)
                 (skipn scanp (d_buf dec) ++ unread (d_r dec) h) scanp = (n, None) ->
               n <= length (d_buf dec')).
Proof.
  induction fuel as [|fuel IH]; intros dec scanp e h Hs Hp Hc Hsc He Hf.
  { destruct e; lia. }
  simpl. unfold readValue_bytes. rewrite scan_buffered_app.
  destruct (scan_buffered (d_scan dec) (skipn scanp (d_buf dec)) scanp) as [n s|s|n s] eqn:Hscan.
  - (* the value ends in the buffer *)
    exists (with_scan dec s), h, [], (unread (d_r dec) h).
    rewrite Hp, Nat.sub_0_r, app_nil_r. repeat split; auto.
    intros n' [= <-]. simpl. apply scan_buffered_end in Hscan.
    rewrite length_skipn in Hscan. lia.
  - exists (with_err (with_scan dec s) (err s)), h, [], (unread (d_r dec) h).
    rewrite app_nil_r. repeat split; auto.
    intros n' [= <- _]. lia.
  - pose proof (scan_buffered_more _ _ _ _ _ Hscan) as Hn.
    rewrite length_skipn in Hn. assert (n = length (d_buf dec)) as -> by lia. clear Hn.
    destruct He as [->|[-> Hu]].
    + (* read more *)
      destruct (refill_simple (with_scan dec s) h) as (k & cap & Hk & Hcap & Hre); auto.
      simpl in Hre, Hcap. rewrite Hre. simpl. rewrite Hp, Nat.sub_0_r. simpl.
      set (u := unread (d_r dec) h) in *.
      set (dec1 := mkDecoder _ _ _ _ _ _).
      set (h1 := (set_unread (d_r dec) (skipn k u) h).2).
      set (e1 := if u is [] then Some EOF else None).
      assert (Hu1 : unread (d_r dec1) h1 = skipn k u).
      { subst dec1 h1. simpl. by apply unread_set_unread. }
      destruct (IH dec1 (length (d_buf dec)) e1 h1) as (dec' & h' & consumed & remaining & H1 & H2 & H3 & H4 & H5 & H6).
      { subst dec1. simpl. by apply simple_set_unread. }
      { done. }
      { subst dec1. simpl. rewrite length_app, length_firstn. lia. }
      { subst dec1. simpl. rewrite length_app. lia. }
      { subst e1. destruct u; [right|left]; auto. split; auto. rewrite Hu1. by rewrite skipn_nil. }
      { rewrite Hu1, length_skipn. subst e1. destruct u; simpl in *; lia. }
      assert (Hpend : skipn (length (d_buf dec)) (d_buf dec1) ++ unread (d_r dec1) h1 = u).
      { rewrite Hu1. subst dec1. simpl.
        rewrite skipn_app, skipn_all, Nat.sub_diag. simpl. apply firstn_skipn. }
      assert (Hall : d_buf dec1 ++ unread (d_r dec1) h1 = d_buf dec ++ u).
      { rewrite Hu1. subst dec1. simpl. rewrite <- app_assoc. by rewrite firstn_skipn. }
      rewrite Hpend, Hall in H1, H6.
      assert (Hsc1 : d_scan dec1 = s) by done. rewrite Hsc1 in H1, H6.
      unfold readValue_bytes in H1, H6.
      exists dec', h', (firstn k u ++ consumed), remaining.
      split; [exact H1|]. split.
      { rewrite <- app_assoc, <- H2, Hu1. by rewrite firstn_skipn. }
      split. { rewrite H3. subst dec1. simpl. by rewrite app_assoc. }
      split; [done|]. split; [|exact H6].
      right. destruct H5 as [[H5 ->]|H5].
      * rewrite H5. subst dec1 h1. simpl. rewrite app_nil_l in H2. rewrite <- H2, Hu1.
        by destruct (set_unread (d_r dec) (skipn k u) h).
      * rewrite H5. subst dec1 h1. simpl. apply set_unread_twice.
    + (* the last read met the end of the input *)
      rewrite Hu, !app_nil_r. simpl.
      destruct (scan_step s " "%char) as [s' op] eqn:Hst. simpl.
      destruct (opcode_eqb op scanEnd).
      * eexists _, h, [], []. rewrite Hp, Nat.sub_0_r. repeat split; auto.
        { simpl. by rewrite app_nil_r. }
        intros n' [= <-]. done.
      * eexists _, h, [], []. repeat split; auto.
        { simpl. by rewrite app_nil_r. }
        intros n'. done.
Qed.

Lemma reader_size_simple r h : simple r -> reader_size r h = length (unread r h).
Proof. by destruct r. Qed.

(** [readValue] of a fresh decoder: the outcome is that of one scan of all
    the bytes; the first read asks for [minRead] bytes, and the reader is
    left with the bytes no read has taken. *)
Lemma readValue_fresh r h :
  simple r ->
  exists dec' h' remaining,
    readValue (NewDecoder r) h =
      Some (readValue_bytes new_scanner (unread r h) (unread r h) 0, dec', h') /\
    d_scanp dec' = 0 /\
    unread r h = d_buf dec' ++ remaining /\
    h' = (set_unread r remaining h).2 /\
    length remaining <= length (unread r h) - minRead /\
    (forall n, readValue_bytes new_scanner (unread r h) (unread r h) 0 = (n, None) ->
               n <= length (d_buf dec')).
Proof.
  intros Hs. set (u := unread r h).
  assert (Hfuel : reader_size (d_r (NewDecoder r)) h + 2 = S (length u + 1)).
  { simpl. rewrite reader_size_simple by done. subst u. lia. }
  unfold readValue. rewrite Hfuel. unfold NewDecoder.
  cbn [readValue_loop NewDecoder with_scan d_scan d_buf d_scanp skipn scan_buffered d_r d_cap d_err].
  unfold refill.
  cbn [d_scanp d_buf d_cap with_scan d_r d_scan d_err skipn length Nat.sub].
  change (if Nat.ltb 0 minRead then 2 * 0 + minRead else 0) with minRead.
  rewrite ?Nat.sub_0_r.
  rewrite (Read_simple r minRead h Hs) by (unfold minRead; lia).
  fold u. cbn [app]. change (scanner_reset new_scanner) with new_scanner.
  set (dec1 := mkDecoder _ _ _ _ _ _).
  set (h1 := (set_unread r (skipn minRead u) h).2).
  set (e1 := if u is [] then Some EOF else None).
  assert (Hu1 : unread (d_r dec1) h1 = skipn minRead u).
  { subst dec1 h1. simpl. by apply unread_set_unread. }
  destruct (readValue_loop_spec (length u + 1) dec1 (d_scanp dec1 + 0) e1 h1)
    as (dec' & h' & consumed & remaining & H1 & H2 & H3 & H4 & H5 & H6).
  { subst dec1. simpl. by apply simple_set_unread. }
  { done. }
  { subst dec1. simpl. rewrite length_firstn. lia. }
  { subst dec1. simpl. lia. }
  { subst e1. destruct u; [right|by left]. split; [done|]. by rewrite Hu1, skipn_nil. }
  { rewrite Hu1, length_skipn. subst e1. unfold minRead. destruct u; simpl length; lia. }
  assert (Hall : d_buf dec1 ++ unread (d_r dec1) h1 = u).
  { rewrite Hu1. subst dec1. simpl. apply firstn_skipn. }
  assert (Hpend : skipn (d_scanp dec1 + 0) (d_buf dec1) ++ unread (d_r dec1) h1 = u).
  { rewrite Hu1. subst dec1. simpl. apply firstn_skipn. }
  rewrite Hall, Hpend in H1, H6.
  change (d_scan dec1) with new_scanner in H1, H6.
  change (d_scanp dec1 + 0) with 0 in H1, H6.
  exists dec', h', remaining. split; [exact H1|]. split; [done|].
  split. { rewrite H3. subst dec1. simpl. rewrite <- app_assoc, <- H2, Hu1. by rewrite firstn_skipn. }
  split.
  { destruct H5 as [[H5 ->]|H5].
    - rewrite app_nil_l in H2. rewrite <- H2, Hu1.
      injection H5 as _ ->. done.
    - apply (f_equal snd) in H5. simpl in H5. rewrite H5.
      subst dec1 h1. simpl. by rewrite set_unread_twice. }
  split; [|exact H6].
  assert (length (skipn minRead u) = length consumed + length remaining) as Hl
    by (rewrite <- Hu1, H2; apply length_app).
  rewrite length_skipn in Hl. lia.
Qed.

(** [decodeJSONUsingNumber] on a string, byte or buffer reader: the result
    is a function of the unread bytes; the reader keeps a suffix of them,
    empty when they were at most [minRead]. *)
Lemma decodeJSONUsingNumber_simple r h :
  simple r ->
  exists consumed remaining,
    decodeJSONUsingNumber r h = (decode_bytes (unread r h), (set_unread r remaining h).2) /\
    unread r h = consumed ++ remaining /\
    length remaining <= length (unread r h) - minRead.
Proof.
  intros Hs. unfold decodeJSONUsingNumber, Decode.
  change (d_err (NewDecoder r)) with (@None error).
  destruct (readValue_fresh r h Hs) as (dec' & h' & remaining & H1 & H2 & H3 & H4 & H5 & H6).
  rewrite H1. unfold decode_bytes.
  exists (d_buf dec'), remaining. split; [|done].
  destruct (readValue_bytes new_scanner (unread r h) (unread r h) 0) as [n [e|]]; [by rewrite H4|].
  specialize (H6 n eq_refl). rewrite H2, H4. unfold slice. simpl.
  rewrite Nat.sub_0_r, H3, firstn_app.
  replace (n - length (d_buf dec')) with 0 by lia. simpl. rewrite app_nil_r.
  by destruct (unmarshal _) as [v [e|]].
Qed.

Lemma decodeJSONUsingNumber_fst r h :
  simple r -> (decodeJSONUsingNumber r h).1 = decode_bytes (unread r h).
Proof.
  intros Hs. destruct (decodeJSONUsingNumber_simple r h Hs) as (c & u & -> & _). done.
Qed.

(** Decoding from a string or byte reader leaves the store as it was. *)
Lemma decodeJSONUsingNumber_StringsReader u h :
  decodeJSONUsingNumber (StringsReader u) h = (decode_bytes u, h).
Proof.
  destruct (decodeJSONUsingNumber_simple (StringsReader u) h I) as (c & u' & -> & _). done.
Qed.

Lemma decodeJSONUsingNumber_BytesReader u h :
  decodeJSONUsingNumber (BytesReader u) h = (decode_bytes u, h).
Proof.
  destruct (decodeJSONUsingNumber_simple (BytesReader u) h I) as (c & u' & -> & _). done.
Qed.

(** Decoding from a buffer takes the bytes it reads out of the buffer. *)
Lemma decodeJSONUsingNumber_BufferReader b h :
  exists consumed remaining,
    decodeJSONUsingNumber (BufferReader b) h =
      (decode_bytes (buffer_bytes h b), <[b := remaining]> h) /\
    buffer_bytes h b = consumed ++ remaining /\
    length remaining <= length (buffer_bytes h b) - minRead.
Proof. exact (decodeJSONUsingNumber_simple (BufferReader b) h I). Qed.

(** ** The loaders *)

Section LoaderProperties.

Variable Marshal : any -> list byte * option error.
Variable JsonReferenceT : Type.
Variable NewJsonReference : string -> JsonReferenceT * option error.

Abbreviation LoadJSON := (LoadJSON Marshal).
Abbreviation JsonReference := (JsonReference JsonReferenceT NewJsonReference).

Lemma LoadJSON_string source h :
  LoadJSON (jsonStringLoader source) h = (decode_bytes (bytes_of source), h).
Proof. apply decodeJSONUsingNumber_StringsReader. Qed.

Lemma LoadJSON_bytes source h :
  LoadJSON (jsonBytesLoader source) h = (decode_bytes source, h).
Proof. apply decodeJSONUsingNumber_BytesReader. Qed.

Lemma LoadJSON_go source h :
  LoadJSON (jsonGoLoader source) h =
    match Marshal source with
    | (_, Some e) => ((Nil, Some e), h)
    | (jsonBytes, None) => (decode_bytes jsonBytes, h)
    end.
Proof.
  simpl. destruct (Marshal source) as [jsonBytes [e|]]; [done|].
  apply decodeJSONUsingNumber_BytesReader.
Qed.

Lemma LoadJSON_io buf h :
  exists consumed remaining,
    LoadJSON (jsonIOLoader buf) h =
      (decode_bytes (buffer_bytes h buf), <[buf := remaining]> h) /\
    buffer_bytes h buf = consumed ++ remaining /\
    length remaining <= length (buffer_bytes h buf) - minRead.
Proof. apply decodeJSONUsingNumber_BufferReader. Qed.


(** C4: decode() on a Pre-decoded loader returns exactly the value it was
    constructed from, with no error, and does nothing else. *)
Theorem LoadJSON_raw_identity (v : any) (h : heap) :
  LoadJSON (NewRawLoader v) h = ((v, None), h).
Proof. reflexivity. Qed.

(** C9: decode() on a location-based loader returns a nil document and a
    nil error, whatever the source string and whichever constructor or
    factory built the loader. *)
Theorem LoadJSON_reference_nil (source : string) (f : JSONLoaderFactory) (h : heap) :
  LoadJSON (NewReferenceLoader source) h = ((Nil, None), h) /\
  LoadJSON (New f source) h = ((Nil, None), h).
Proof. by destruct f. Qed.

(** C8: the default and the filesystem factory build the same
    location-based loader for a source string, so source(), decode(),
    referenceIdentity() and factory() agree on the two. *)
Theorem factories_agree (source : string) (h : heap) :
  New DefaultJSONLoaderFactory source = jsonReferenceLoader source /\
  New FileSystemJSONLoaderFactory source = jsonReferenceLoader source /\
  JsonSource (New DefaultJSONLoaderFactory source) h =
    JsonSource (New FileSystemJSONLoaderFactory source) h /\
  LoadJSON (New DefaultJSONLoaderFactory source) h =
    LoadJSON (New FileSystemJSONLoaderFactory source) h /\
  JsonReference (New DefaultJSONLoaderFactory source) =
    JsonReference (New FileSystemJSONLoaderFactory source) /\
  LoaderFactory (New DefaultJSONLoaderFactory source) =
    LoaderFactory (New FileSystemJSONLoaderFactory source).
Proof. repeat split. Qed.


(** C6: when serializing the native value fails, decode() on the
    Native-value loader returns that error and a nil document, and the
    decoder is never run (the store is untouched). *)
Theorem LoadJSON_go_marshal_error (v : any) (jsonBytes : list byte) (e : error) (h : heap) :
  Marshal v = (jsonBytes, Some e) ->
  LoadJSON (NewGoLoader v) h = ((Nil, Some e), h).
Proof. intros HM. simpl. by rewrite HM. Qed.

End LoaderProperties.

(** ** Writing through the duplicating writer *)

Lemma Buffer_Write_frame b p h b' :
  b' <> b -> (Buffer_Write b p h).2 !! b' = h !! b'.
Proof. intros Hb. unfold Buffer_Write. simpl. by rewrite lookup_insert_ne. Qed.

(** Induction on writers, through the list of a MultiWriter. *)
Lemma writer_nested_ind (P : writer -> Prop) :
  (forall b, P (BufferWriter b)) -> P Discard ->
  (forall room, P (LimitedWriter room)) -> (forall msg, P (FailingWriter msg)) ->
  (forall ws, Forall P ws -> P (MultiWriter ws)) ->
  forall w, P w.
Proof.
  intros HB HD HL HF HM. fix induct 1.
  intros [b| |room|msg|ws]; [apply HB|apply HD|apply HL|apply HF|].
  apply HM. induction ws as [|w ws IHws]; constructor; [apply induct|exact IHws].
Qed.

(** A write changes no buffer but those of the writer. *)
Lemma Write_frame (w : writer) : forall p h b,
  ~ In b (writer_locs w) -> (Write w p h).2 !! b = h !! b.
Proof.
  induction w as [b0| |room|msg|ws IH] using writer_nested_ind; intros p h b Hb; try done.
  - apply Buffer_Write_frame. simpl in Hb. intros ->. apply Hb. by left.
  - simpl in Hb. simpl. revert h. induction IH as [|w ws Hw _ IHws]; intros h; [done|].
    simpl in Hb. rewrite in_app_iff in Hb.
    cbn [Write]. destruct (Write w p h) as [[n e] h'] eqn:Ew.
    assert (Hw' : h' !! b = h !! b).
    { specialize (Hw p h b). rewrite Ew in Hw. apply Hw. tauto. }
    destruct e; [done|]. destruct (Nat.eqb n (length p)); [|done].
    rewrite <- Hw'. apply IHws. tauto.
Qed.

(** A write through [io.MultiWriter(source, buf)] that reports no error
    appends the bytes to the buffer. *)
Lemma MultiWriter_write_buffer source b p h n h1 :
  ~ In b (writer_locs source) ->
  Write (MultiWriter [source; BufferWriter b]) p h = ((n, None), h1) ->
  buffer_bytes h1 b = buffer_bytes h b ++ p.
Proof.
  intros Hb. cbn [Write].
  destruct (Write source p h) as [[n1 e1] h'] eqn:Es.
  pose proof (Write_frame source p h b Hb) as Hfr.
  rewrite Es in Hfr. simpl in Hfr.
  destruct e1; [done|]. destruct (Nat.eqb n1 (length p)); [|done].
  unfold Buffer_Write. simpl. rewrite Nat.eqb_refl. intros [= _ <-].
  unfold buffer_bytes. by rewrite lookup_insert_eq, Hfr.
Qed.

Lemma write_all_buffer source b ps : forall h h1,
  ~ In b (writer_locs source) ->
  write_all (MultiWriter [source; BufferWriter b]) ps h = (None, h1) ->
  buffer_bytes h1 b = buffer_bytes h b ++ concat ps.
Proof.
  induction ps as [|p ps IH]; intros h h1 Hb.
  - intros [= <-]. simpl. by rewrite app_nil_r.
  - cbn [write_all].
    destruct (Write (MultiWriter [source; BufferWriter b]) p h) as [[n e] h'] eqn:Ew.
    destruct e; [done|]. intros Hall.
    rewrite (IH h' h1 Hb Hall), (MultiWriter_write_buffer source b p h n h' Hb Ew).
    simpl. by rewrite app_assoc.
Qed.

(** After writes through the writer of [NewWriterLoader] that reported no
    error, the loader's buffer holds the bytes written, in order. *)
Lemma NewWriterLoader_captures source ps h l w h0 h1 :
  (forall b, In b (writer_locs source) -> b ∈ dom h) ->
  NewWriterLoader source h = ((l, w), h0) ->
  write_all w ps h0 = (None, h1) ->
  l = jsonIOLoader (fresh h) /\ buffer_bytes h1 (fresh h) = concat ps.
Proof.
  intros Hwf [= <- <- <-] Hall. split; [done|].
  assert (Hfresh : ~ In (fresh h) (writer_locs source)).
  { intros Hin. apply Hwf in Hin. exact (is_fresh (dom h) Hin). }
  rewrite (write_all_buffer source (fresh h) ps _ h1 Hfresh Hall).
  unfold buffer_bytes. by rewrite lookup_insert_eq.
Qed.

Lemma bytes_of_string_of b : bytes_of (string_of b) = b.
Proof. apply list_ascii_of_string_of_list_ascii. Qed.

Lemma string_of_bytes_of s : string_of (bytes_of s) = s.
Proof. apply string_of_list_ascii_of_string. Qed.

(** Bytes after a value that ended inside the buffer play no part. *)
Lemma decode_bytes_complete t g n s :
  scan_buffered new_scanner t 0 = ScanEnd n s ->
  decode_bytes (t ++ g) = decode_bytes t.
Proof.
  intros Hscan. unfold decode_bytes, readValue_bytes.
  rewrite scan_buffered_app, Hscan.
  apply scan_buffered_end in Hscan.
  rewrite firstn_app. replace (n - length t) with 0 by lia.
  simpl. by rewrite app_nil_r.
Qed.

Lemma decode_bytes_nil : decode_bytes [] = (Nil, Some EOF).
Proof. reflexivity. Qed.

Section StreamingProperties.

Variable Marshal : any -> list byte * option error.

Abbreviation LoadJSON := (LoadJSON Marshal).


(** decode() of a streaming loader with at most [minRead] captured bytes
    empties the buffer. *)
Lemma LoadJSON_io_drains buf h :
  length (buffer_bytes h buf) <= minRead ->
  LoadJSON (jsonIOLoader buf) h = (decode_bytes (buffer_bytes h buf), <[buf := []]> h).
Proof.
  intros Hlen.
  destruct (LoadJSON_io Marshal buf h) as (consumed & remaining & -> & _ & Hrem).
  destruct remaining; [done|]. simpl in Hrem. lia.
Qed.



(** C7: after a byte sequence went through the duplicating writer of a
    streaming loader, in one write or in several, without a write error,
    decode() on that loader returns what decode() on a Binary loader of the
    sequence returns. *)
Theorem streaming_decode_is_binary_decode (source : writer) (ps : list (list byte))
  (h : heap) (l : JSONLoader) (w : writer) (h0 h1 : heap) :
  (forall b, In b (writer_locs source) -> b ∈ dom h) ->
  NewWriterLoader source h = ((l, w), h0) ->
  write_all w ps h0 = (None, h1) ->
  (LoadJSON l h1).1 = (LoadJSON (NewBytesLoader (concat ps)) h1).1.
Proof.
  intros Hwf Hnew Hw.
  destruct (NewWriterLoader_captures _ _ _ _ _ _ _ Hwf Hnew Hw) as [-> Hb].
  destruct (LoadJSON_io Marshal (fresh h) h1) as (c & r & -> & _ & _).
  unfold NewBytesLoader. rewrite LoadJSON_bytes. simpl. by rewrite Hb.
Qed.

(** C10: a Text or Binary loader whose source is the object {"a":1}
    followed by any bytes at all decodes to that object, without error. *)
Theorem trailing_bytes_ignored (g : list byte) (h : heap) :
  LoadJSON (NewBytesLoader (quoted "{'a':1}" ++ g)) h =
    ((Map {[ "a" := Number "1" ]}, None), h) /\
  LoadJSON (NewStringLoader (string_of (quoted "{'a':1}" ++ g))) h =
    ((Map {[ "a" := Number "1" ]}, None), h).
Proof.
  assert (Hd : decode_bytes (quoted "{'a':1}" ++ g) = (Map {[ "a" := Number "1" ]}, None)).
  { destruct (scan_buffered new_scanner (quoted "{'a':1}") 0) as [n s|s|n s] eqn:E;
      try (vm_compute in E; discriminate).
    rewrite (decode_bytes_complete _ g n s E). vm_compute. reflexivity. }
  split.
  - unfold NewBytesLoader. by rewrite LoadJSON_bytes, Hd.
  - unfold NewStringLoader. by rewrite LoadJSON_string, bytes_of_string_of, Hd.
Qed.

End StreamingProperties.

(** ** The numbers of a decoded value are literals of the text *)



Lemma rescan_number_spec bs : forall i0,
  i0 <= rescan_number bs i0 /\
  forallb isNumberByte (firstn (rescan_number bs i0 - i0) bs) = true.
Proof.
  induction bs as [|c bs IH]; intros i0; simpl.
  - split; [lia|]. by rewrite firstn_nil.
  - destruct (isNumberByte c) eqn:Ec.
    + destruct (IH (S i0)) as [H1 H2]. split; [lia|].
      replace (rescan_number bs (S i0) - i0) with (S (rescan_number bs (S i0) - S i0)) by lia.
      simpl. by rewrite Ec, H2.
    + split; [lia|]. by rewrite Nat.sub_diag.
Qed.


Lemma scanWhile_data d op : data (scanWhile d op) = data d.
Proof.
  unfold scanWhile. destruct (scanWhile_loop _ _ _ _) as [s [[newOp i]|]]; [done|].
  by destruct (scanner_eof _).
Qed.








Lemma valueInterface_S fuel d :
  valueInterface (S fuel) d =
    match opcode_ d with
    | scanBeginArray =>
        match arrayInterface fuel [] d with
        | Some (v, d') => Some (Slice v, scanNext d')
        | None => None
        end
    | scanBeginObject =>
        match objectInterface fuel ∅ d with
        | Some (m, d') => Some (Map m, scanNext d')
        | None => None
        end
    | scanBeginLiteral => literalInterface d
    | _ => None
    end.
Proof. reflexivity. Qed.

Lemma arrayInterface_S fuel v d :
  arrayInterface (S fuel) v d =
    let d := scanWhile d scanSkipSpace in
    if opcode_eqb (opcode_ d) scanEndArray then Some (v, d)
    else
      match valueInterface fuel d with
      | None => None
      | Some (x, d) =>
          let v := v ++ [x] in
          let d := skip_space d in
          if opcode_eqb (opcode_ d) scanEndArray then Some (v, d)
          else if opcode_eqb (opcode_ d) scanArrayValue then arrayInterface fuel v d
          else None
      end.
Proof. reflexivity. Qed.

Lemma objectInterface_S fuel m d :
  objectInterface (S fuel) m d =
    let d := scanWhile d scanSkipSpace in
    if opcode_eqb (opcode_ d) scanEndObject then Some (m, d)
    else if negb (opcode_eqb (opcode_ d) scanBeginLiteral) then None
    else
      let start := readIndex d in
      let d := rescanLiteral d in
      match unquote (slice (data d) start (readIndex d)) with
      | None => None
      | Some key =>
          let d := skip_space d in
          if negb (opcode_eqb (opcode_ d) scanObjectKey) then None
          else
            let d := scanWhile d scanSkipSpace in
            match valueInterface fuel d with
            | None => None
            | Some (x, d) =>
                let m := <[key := x]> m in
                let d := skip_space d in
                if opcode_eqb (opcode_ d) scanEndObject then Some (m, d)
                else if opcode_eqb (opcode_ d) scanObjectValue then objectInterface fuel m d
                else None
            end
      end.
Proof. reflexivity. Qed.


(** ** The fuel of the value builder *)

Lemma scanner_eof_at_end s : at_end (scanner_eof s).2.
Proof.
  unfold scanner_eof, at_end. destruct (err s); [by right|].
  destruct (endTop s); [by left|]. destruct (endTop _); [by left|].
  destruct (err _); by right.
Qed.

Lemma scanWhile_loop_index s bs i op s' newOp j :
  scanWhile_loop s bs i op = (s', Some (newOp, j)) -> i < j <= i + length bs.
Proof.
  revert s i. induction bs as [|c bs IH]; intros s i; simpl; [done|].
  destruct (scan_step s c) as [s1 op1]. destruct (opcode_eqb op1 op).
  - intros H. apply IH in H. lia.
  - intros [= _ _ <-]. lia.
Qed.

Lemma scanWhile_left d op : bytes_left (scanWhile d op) <= pred (bytes_left d).
Proof.
  unfold scanWhile, bytes_left.
  destruct (scanWhile_loop _ _ _ _) as [s [[newOp j]|]] eqn:E.
  - apply scanWhile_loop_index in E. rewrite length_skipn in E. simpl. lia.
  - destruct (scanner_eof s). simpl. lia.
Qed.

Lemma scanWhile_at_end d op : bytes_left d = 0 -> at_end (opcode_ (scanWhile d op)).
Proof.
  unfold bytes_left, scanWhile. intros H.
  rewrite skipn_all2 by lia. simpl.
  pose proof (scanner_eof_at_end (scan d)) as He.
  by destruct (scanner_eof (scan d)).
Qed.

Lemma skip_space_left d : bytes_left (skip_space d) <= bytes_left d.
Proof.
  unfold skip_space. destruct (opcode_eqb _ _); [|done].
  pose proof (scanWhile_left d scanSkipSpace). lia.
Qed.

Lemma scanNext_left d : bytes_left (scanNext d) <= pred (bytes_left d).
Proof.
  unfold scanNext, bytes_left. destruct (data d !! off d) eqn:E.
  - apply lookup_lt_Some in E. destruct (scan_step _ _). simpl. lia.
  - destruct (scanner_eof _). simpl. lia.
Qed.

Lemma rescan_string_index bs i : i <= rescan_string bs i.
Proof.
  assert (H : forall n bs i, length bs <= n -> i <= rescan_string bs i).
  { clear. induction n as [|n IH]; intros [|c bs] i Hn; simpl in *; try lia.
    destruct (byte_eqb c DQ); [lia|]. destruct (byte_eqb c BSL).
    - destruct bs as [|c' bs']; [lia|]. simpl in Hn.
      specialize (IH bs' (S (S i))). lia.
    - specialize (IH bs (S i)). lia. }
  by apply (H (length bs)).
Qed.

Lemma rescanLiteral_left d : bytes_left (rescanLiteral d) <= pred (bytes_left d).
Proof.
  unfold rescanLiteral, bytes_left.
  set (i := match data d !! (off d - 1) with Some _ => _ | None => _ end).
  assert (Hi : off d <= i).
  { subst i. destruct (data d !! (off d - 1)) as [c|]; [|lia].
    destruct (byte_eqb c DQ); [apply rescan_string_index|].
    destruct (_ || _); [apply rescan_number_spec|].
    repeat (destruct (byte_eqb c _); [lia|]). lia. }
  destruct (data d !! i); [destruct (do_stateEndValue _ _)|]; simpl; lia.
Qed.

Lemma valueInterface_at_end f d : at_end (opcode_ d) -> valueInterface f d = None.
Proof. destruct f; [done|]. rewrite valueInterface_S. by intros [-> | ->]. Qed.

Lemma literalInterface_left d v d' :
  literalInterface d = Some (v, d') -> bytes_left d' <= pred (bytes_left d).
Proof.
  unfold literalInterface. pose proof (rescanLiteral_left d) as H.
  destruct (slice _ _ _) as [|c item]; [done|].
  repeat (destruct (_ : bool); [by intros [= _ <-]|]).
  destruct (byte_eqb c DQ).
  - destruct (unquote _); [|done]. by intros [= _ <-].
  - destruct (_ && _); [done|]. by intros [= _ <-].
Qed.

Lemma interfaces_left f :
  (forall d v d', valueInterface f d = Some (v, d') -> bytes_left d' <= pred (bytes_left d)) /\
  (forall acc d l d', arrayInterface f acc d = Some (l, d') -> bytes_left d' <= bytes_left d) /\
  (forall m d m' d', objectInterface f m d = Some (m', d') -> bytes_left d' <= bytes_left d).
Proof.
  induction f as [|f (IHv & IHa & IHo)]; [by repeat split|].
  split; [|split].
  - intros d v d'. rewrite valueInterface_S. destruct (opcode_ d); try done.
    + apply literalInterface_left.
    + destruct (objectInterface f ∅ d) as [[m d1]|] eqn:Eo; [|done].
      intros [= _ <-]. apply IHo in Eo. pose proof (scanNext_left d1). lia.
    + destruct (arrayInterface f [] d) as [[l d1]|] eqn:Ea; [|done].
      intros [= _ <-]. apply IHa in Ea. pose proof (scanNext_left d1). lia.
  - intros acc d l d'. rewrite arrayInterface_S. cbv zeta.
    pose proof (scanWhile_left d scanSkipSpace) as H0.
    set (d0 := scanWhile d scanSkipSpace) in *.
    destruct (opcode_eqb (opcode_ d0) scanEndArray).
    { intros [= _ <-]. lia. }
    destruct (valueInterface f d0) as [[x d1]|] eqn:Ev; [|done].
    apply IHv in Ev. pose proof (skip_space_left d1) as H2.
    set (d2 := skip_space d1) in *.
    destruct (opcode_eqb (opcode_ d2) scanEndArray).
    { intros [= _ <-]. lia. }
    destruct (opcode_eqb (opcode_ d2) scanArrayValue); [|done].
    intros H. apply IHa in H. lia.
  - intros m d m' d'. rewrite objectInterface_S. cbv zeta.
    pose proof (scanWhile_left d scanSkipSpace) as H0.
    set (d0 := scanWhile d scanSkipSpace) in *.
    destruct (opcode_eqb (opcode_ d0) scanEndObject).
    { intros [= _ <-]. lia. }
    destruct (negb _); [done|].
    pose proof (rescanLiteral_left d0) as H1.
    set (d1 := rescanLiteral d0) in *.
    destruct (unquote _) as [key|]; [|done].
    pose proof (skip_space_left d1) as H2.
    set (d2 := skip_space d1) in *.
    destruct (negb _); [done|].
    pose proof (scanWhile_left d2 scanSkipSpace) as H3.
    set (d3 := scanWhile d2 scanSkipSpace) in *.
    destruct (valueInterface f d3) as [[x d4]|] eqn:Ev; [|done].
    apply IHv in Ev. pose proof (skip_space_left d4) as H5.
    set (d5 := skip_space d4) in *.
    destruct (opcode_eqb (opcode_ d5) scanEndObject).
    { intros [= _ <-]. lia. }
    destruct (opcode_eqb (opcode_ d5) scanObjectValue); [|done].
    intros H. apply IHo in H. lia.
Qed.

(** With fuel for twice the bytes left, one more unit of fuel changes
    nothing: the fuel never runs out. *)
Lemma interfaces_fuel f :
  (forall d, 2 * bytes_left d + 1 <= f -> valueInterface (S f) d = valueInterface f d) /\
  (forall acc d, 2 * bytes_left d <= f -> arrayInterface (S f) acc d = arrayInterface f acc d) /\
  (forall m d, 2 * bytes_left d <= f -> objectInterface (S f) m d = objectInterface f m d).
Proof.
  induction f as [|f (IHv & IHa & IHo)].
  - split; [intros d; lia|]. split.
    + intros acc d Hl. rewrite arrayInterface_S. cbv zeta.
      pose proof (scanWhile_at_end d scanSkipSpace ltac:(lia)) as [-> | ->]; done.
    + intros m d Hl. rewrite objectInterface_S. cbv zeta.
      pose proof (scanWhile_at_end d scanSkipSpace ltac:(lia)) as [-> | ->]; done.
  - split; [|split].
    + intros d Hl. rewrite (valueInterface_S (S f)), (valueInterface_S f).
      destruct (opcode_ d); try done.
      * by rewrite IHo by lia.
      * by rewrite IHa by lia.
    + intros acc d Hl. rewrite (arrayInterface_S (S f)), (arrayInterface_S f). cbv zeta.
      pose proof (scanWhile_left d scanSkipSpace) as H0.
      pose proof (scanWhile_at_end d scanSkipSpace) as Hend.
      set (d0 := scanWhile d scanSkipSpace) in *.
      destruct (opcode_eqb (opcode_ d0) scanEndArray); [done|].
      assert (Hv : valueInterface (S f) d0 = valueInterface f d0).
      { destruct (bytes_left d) eqn:El.
        - rewrite !valueInterface_at_end by (by apply Hend). done.
        - apply IHv. lia. }
      rewrite Hv. destruct (valueInterface f d0) as [[x d1]|] eqn:Ev; [|done].
      apply (proj1 (interfaces_left f)) in Ev.
      pose proof (skip_space_left d1) as H2.
      set (d2 := skip_space d1) in *.
      destruct (opcode_eqb (opcode_ d2) scanEndArray); [done|].
      destruct (opcode_eqb (opcode_ d2) scanArrayValue); [|done].
      apply IHa. lia.
    + intros m d Hl. rewrite (objectInterface_S (S f)), (objectInterface_S f). cbv zeta.
      pose proof (scanWhile_left d scanSkipSpace) as H0.
      set (d0 := scanWhile d scanSkipSpace) in *.
      destruct (opcode_eqb (opcode_ d0) scanEndObject); [done|].
      destruct (negb _); [done|].
      pose proof (rescanLiteral_left d0) as H1.
      set (d1 := rescanLiteral d0) in *.
      destruct (unquote _) as [key|]; [|done].
      pose proof (skip_space_left d1) as H2.
      set (d2 := skip_space d1) in *.
      destruct (negb _); [done|].
      pose proof (scanWhile_left d2 scanSkipSpace) as H3.
      pose proof (scanWhile_at_end d2 scanSkipSpace) as Hend.
      set (d3 := scanWhile d2 scanSkipSpace) in *.
      assert (Hv : valueInterface (S f) d3 = valueInterface f d3).
      { destruct (bytes_left d2) eqn:El.
        - rewrite !valueInterface_at_end by (by apply Hend). done.
        - apply IHv. lia. }
      rewrite Hv. destruct (valueInterface f d3) as [[x d4]|] eqn:Ev; [|done].
      apply (proj1 (interfaces_left f)) in Ev.
      pose proof (skip_space_left d4) as H5.
      set (d5 := skip_space d4) in *.
      destruct (opcode_eqb (opcode_ d5) scanEndObject); [done|].
      destruct (opcode_eqb (opcode_ d5) scanObjectValue); [|done].
      apply IHo. lia.
Qed.

Lemma valueInterface_fuel d k :
  valueInterface (2 * bytes_left d + 1 + k) d = valueInterface (2 * bytes_left d + 1) d.
Proof.
  induction k as [|k IH]; [by rewrite Nat.add_0_r|].
  rewrite Nat.add_succ_r. rewrite (proj1 (interfaces_fuel _)) by lia. done.
Qed.

(** The fuel of [unmarshal] is enough: more fuel gives the same value. *)
Lemma unmarshal_fuel u k :
  let d := scanWhile (decodeState_init u) scanSkipSpace in
  valueInterface (2 * length (data d) + 1 + k) d = valueInterface (2 * length (data d) + 1) d.
Proof.
  intros d.
  assert (Hl : bytes_left d <= length (data d)).
  { pose proof (scanWhile_left (decodeState_init u) scanSkipSpace) as H.
    subst d. rewrite scanWhile_data. unfold bytes_left in *. simpl in *. lia. }
  set (n := length (data d)) in *.
  transitivity (valueInterface (2 * bytes_left d + 1) d).
  - replace (2 * n + 1 + k) with (2 * bytes_left d + 1 + (2 * (n - bytes_left d) + k)) by lia.
    apply valueInterface_fuel.
  - replace (2 * n + 1) with (2 * bytes_left d + 1 + 2 * (n - bytes_left d)) by lia.
    symmetry. apply valueInterface_fuel.
Qed.



Section NumericFidelity.

Variable Marshal : any -> list byte * option error.

Abbreviation LoadJSON := (LoadJSON Marshal).

Abbreviation decoder_input := (decoder_input Marshal).

Lemma LoadJSON_decoder_input l h text :
  decoder_input l h = Some text -> (LoadJSON l h).1 = decode_bytes text.
Proof.
  destruct l; simpl decoder_input; try done.
  - intros [= <-]. by rewrite LoadJSON_string.
  - intros [= <-]. by rewrite LoadJSON_bytes.
  - rewrite LoadJSON_go. destruct (Marshal source) as [b [e|]]; [done|]. by intros [= <-].
  - intros [= <-]. by destruct (LoadJSON_io Marshal buf h) as (c & r & -> & _).
Qed.


End NumericFidelity.

(** ** Integer literals of any length *)










Section NumericFidelityOfLoaders.

Variable Marshal : any -> list byte * option error.

Abbreviation LoadJSON := (LoadJSON Marshal).
Abbreviation decoder_input := (decoder_input Marshal).


End NumericFidelityOfLoaders.

(** ** The loaders at work *)

(** What the decoder makes of some texts. *)
Example decode_examples :
  decode_bytes (quoted "{'a':1}garbage") = (Map {[ "a" := Number "1" ]}, None) /\
  decode_bytes (quoted " [1, true, null, 'x\u0041\n', {'k': [], 'k': -1.5e+3}] ") =
    (Slice [Number "1"; Bool true; Nil; Str (String "x" (String "A" (String "010" "")));
            Map {[ "k" := Number "-1.5e+3" ]}], None) /\
  decode_bytes (quoted "12+3") = (Number "12", None) /\
  decode_bytes (quoted "") = (Nil, Some EOF) /\
  decode_bytes (quoted "   ") = (Nil, Some EOF) /\
  decode_bytes (quoted "{'a':") = (Nil, Some ErrUnexpectedEOF) /\
  decode_bytes (quoted "{'a':1,}") =
    (Nil, Some (SyntaxError "}" "looking for beginning of object key string" 8)) /\
  decode_bytes (quoted "[1 2]") = (Nil, Some (SyntaxError "2" "after array element" 4)).
Proof. vm_compute. repeat split. Qed.

(** The text of the numeric-fidelity example, with its thirty digits. *)
Example big_number_text :
  decode_bytes (quoted "{'n': 123456789012345678901234567890}") =
    (Map {[ "n" := Number "123456789012345678901234567890" ]}, None).
Proof. vm_compute. reflexivity. Qed.

(** The four strategies that decode hand back the thirty digits. *)
Example big_number_all_strategies :
  let text := quoted "{'n': 123456789012345678901234567890}" in
  let doc := (Map {[ "n" := Number "123456789012345678901234567890" ]}, None) in
  (LoadJSON Marshal_plain (NewStringLoader (string_of text)) ∅).1 = doc /\
  (LoadJSON Marshal_plain (NewBytesLoader text) ∅).1 = doc /\
  (LoadJSON Marshal_plain (jsonIOLoader 0) {[ 0 := text ]}).1 = doc /\
  (LoadJSON Marshal_plain
     (NewGoLoader (Slice [Number "123456789012345678901234567890"])) ∅).1 =
    (Slice [Number "123456789012345678901234567890"], None).
Proof. vm_compute. repeat split. Qed.







Lemma LoadJSON_go_marshal_error_witness :
  LoadJSON Marshal_plain (NewGoLoader (Slice [Int 1; Func 0])) ∅ =
    ((Nil, Some (MarshalError "json: unsupported type")), ∅).
Proof.
  apply (LoadJSON_go_marshal_error Marshal_plain (Slice [Int 1; Func 0]) []).
  reflexivity.
Defined.

Lemma streaming_decode_is_binary_decode_witness :
  (LoadJSON Marshal_plain (jsonIOLoader 0) {[ 0 := quoted "{'a':1}" ]}).1 =
    (LoadJSON Marshal_plain (NewBytesLoader (quoted "{'a':1}")) {[ 0 := quoted "{'a':1}" ]}).1.
Proof.
  apply (streaming_decode_is_binary_decode Marshal_plain Discard
           [quoted "{'a':"; quoted "1}"] ∅
           (jsonIOLoader 0) (MultiWriter [Discard; BufferWriter 0]) {[ 0 := [] ]}
           {[ 0 := quoted "{'a':1}" ]}).
  - intros b [].
  - vm_compute. reflexivity.
  - vm_compute. reflexivity.
Defined.

(** ** More of the loaders: readers, writers, errors, shapes *)

(** A read changes no buffer but those of the reader, and does not depend
    on the others. *)
Lemma Read_local (r : reader) : forall n h b x,
  ~ In b (reader_locs r) ->
  Read r n (<[b := x]> h) =
    ((Read r n h).1.1, (Read r n h).1.2, <[b := x]> (Read r n h).2).
Proof.
  induction r as [u|u|b0|src IH w]; intros n h b x Hb; simpl in *.
  - by destruct (read_unread u n) as [[p e] u'].
  - by destruct (read_unread u n) as [[p e] u'].
  - assert (b0 <> b) by tauto.
    unfold Buffer_Read, buffer_bytes. rewrite lookup_insert_ne by done.
    destruct (default [] (h !! b0)); simpl; by rewrite insert_insert_ne.
  - assert (Hw : w <> b) by tauto. rewrite IH by tauto.
    destruct (Read src n h) as [[[p e] src'] h1]. simpl.
    destruct p as [|c p]; [done|].
    unfold Buffer_Write, buffer_bytes. simpl.
    rewrite lookup_insert_ne by done. by rewrite insert_insert_ne.
Qed.

Lemma Read_locs (r : reader) n h : reader_locs (Read r n h).1.2 = reader_locs r.
Proof.
  revert n h. induction r as [u|u|b0|src IH w]; intros n h; simpl.
  - by destruct (read_unread u n) as [[p e] u'].
  - by destruct (read_unread u n) as [[p e] u'].
  - by destruct (Buffer_Read b0 n h).
  - specialize (IH n h). destruct (Read src n h) as [[[p e] src'] h1]. simpl in *.
    destruct p; simpl; by rewrite IH.
Qed.

(** One read through a tee: what the source returns, copied to the buffer. *)
Lemma Read_tee src w n h x :
  ~ In w (reader_locs src) ->
  Read (TeeReader src w) n (<[w := x]> h) =
    ((Read src n h).1.1, TeeReader (Read src n h).1.2 w,
     <[w := x ++ (Read src n h).1.1.1]> (Read src n h).2).
Proof.
  intros Hw. cbn [Read]. rewrite Read_local by done.
  destruct (Read src n h) as [[[p e] src'] h1]. simpl.
  destruct p as [|c p]; [by rewrite app_nil_r|].
  unfold Buffer_Write, buffer_bytes. simpl.
  by rewrite lookup_insert_eq, insert_insert_eq.
Qed.

Lemma read_seq_tee w ns : forall src h x,
  ~ In w (reader_locs src) ->
  read_seq (TeeReader src w) ns (<[w := x]> h) =
    ((read_seq src ns h).1.1, TeeReader (read_seq src ns h).1.2 w,
     <[w := x ++ delivered (read_seq src ns h).1.1]> (read_seq src ns h).2).
Proof.
  induction ns as [|n ns IH]; intros src h x Hw.
  - simpl. unfold delivered. simpl. by rewrite app_nil_r.
  - cbn [read_seq]. rewrite Read_tee by done.
    pose proof (Read_locs src n h) as Hl.
    destruct (Read src n h) as [[[p e] src'] h1]. simpl in *.
    rewrite IH by (by rewrite Hl).
    destruct (read_seq src' ns h1) as [[outs src''] h2]. simpl.
    unfold delivered. simpl. by rewrite app_assoc.
Qed.

Section MoreOfTheLoaders.

Variable Marshal : any -> list byte * option error.

Abbreviation LoadJSON := (LoadJSON Marshal).

(** X1: reading through the reader of [NewReaderLoader] returns what reading
    the source itself returns, read for read, and leaves the bytes read in
    the loader's buffer: decode() then decodes exactly the bytes that were
    read so far. *)
Theorem reader_loader_captures (source : reader) (ns : list nat) (h : heap)
  (l : JSONLoader) (r : reader) (h0 : heap) :
  (forall b, In b (reader_locs source) -> b ∈ dom h) ->
  NewReaderLoader source h = ((l, r), h0) ->
  (read_seq r ns h0).1.1 = (read_seq source ns h).1.1 /\
  JsonSource l (read_seq r ns h0).2 =
    Str (string_of (delivered (read_seq source ns h).1.1)) /\
  (LoadJSON l (read_seq r ns h0).2).1 =
    decode_bytes (delivered (read_seq source ns h).1.1).
Proof.
  intros Hwf [= <- <- <-].
  assert (Hfresh : ~ In (fresh h) (reader_locs source)).
  { intros Hin. apply Hwf in Hin. exact (is_fresh (dom h) Hin). }
  rewrite read_seq_tee by done. cbn [fst snd app].
  split; [done|].
  assert (Hb : forall hs u, buffer_bytes (<[fresh h := u]> hs) (fresh h) = u).
  { intros hs u. unfold buffer_bytes. by rewrite lookup_insert_eq. }
  split.
  - cbn [JsonSource]. unfold Buffer_String. by rewrite Hb.
  - destruct (LoadJSON_io Marshal (fresh h)
                (<[fresh h := delivered (read_seq source ns h).1.1]>
                   (read_seq source ns h).2)) as (c & rem & -> & _ & _).
    cbn [fst]. by rewrite Hb.
Qed.

(** X2: a streaming loader nothing has gone through yet, from either
    constructor and whatever the stream and the store: source() is the
    empty string and decode() fails with io.EOF, leaving the store as it
    is. *)
Theorem fresh_streaming_loader (h : heap) :
  (forall source,
     JsonSource (NewWriterLoader source h).1.1 (NewWriterLoader source h).2 = Str "" /\
     LoadJSON (NewWriterLoader source h).1.1 (NewWriterLoader source h).2 =
       ((Nil, Some EOF), (NewWriterLoader source h).2)) /\
  (forall source,
     JsonSource (NewReaderLoader source h).1.1 (NewReaderLoader source h).2 = Str "" /\
     LoadJSON (NewReaderLoader source h).1.1 (NewReaderLoader source h).2 =
       ((Nil, Some EOF), (NewReaderLoader source h).2)).
Proof.
  assert (Hb : buffer_bytes (<[fresh h := []]> h) (fresh h) = []).
  { unfold buffer_bytes. by rewrite lookup_insert_eq. }
  assert (H : JsonSource (jsonIOLoader (fresh h)) (<[fresh h := []]> h) = Str "" /\
              LoadJSON (jsonIOLoader (fresh h)) (<[fresh h := []]> h) =
                ((Nil, Some EOF), <[fresh h := []]> h)).
  { split.
    - cbn [JsonSource]. unfold Buffer_String. by rewrite Hb.
    - rewrite LoadJSON_io_drains by (rewrite Hb; simpl; lia).
      by rewrite Hb, insert_insert_eq. }
  split; intros source; exact H.
Qed.

(** A write through [io.MultiWriter(source, buf)] that reports an error has
    put nothing into the buffer; the error is the source's, or
    io.ErrShortWrite when the source took fewer bytes than it was given. *)
Lemma MultiWriter_write_error source b p h n e h1 :
  ~ In b (writer_locs source) ->
  Write (MultiWriter [source; BufferWriter b]) p h = ((n, Some e), h1) ->
  buffer_bytes h1 b = buffer_bytes h b /\
  ((Write source p h).1 = (n, Some e) \/
   (Write source p h).1 = (n, None) /\ n <> length p /\ e = ErrShortWrite).
Proof.
  intros Hb. cbn [Write].
  pose proof (Write_frame source p h b Hb) as Hfr.
  destruct (Write source p h) as [[n1 e1] h'] eqn:Es. simpl in Hfr.
  destruct e1 as [e1|].
  - intros [= <- <- <-]. split; [|by left]. unfold buffer_bytes. by rewrite Hfr.
  - destruct (Nat.eqb_spec n1 (length p)) as [Heq|Hne].
    + unfold Buffer_Write. simpl. by rewrite Nat.eqb_refl.
    + intros [= <- <- <-]. split; [|by right]. unfold buffer_bytes. by rewrite Hfr.
Qed.

(** X3: a write through the duplicating writer that fails (the caller's
    writer reports an error or takes fewer bytes than given) captures
    nothing: source() stays the text of the bytes of the writes that went
    through before, and the error is the caller's writer's or
    io.ErrShortWrite. *)
Theorem failed_write_captures_nothing (source : writer) (ps : list (list byte))
  (p : list byte) (h : heap) (l : JSONLoader) (w : writer) (h0 h1 h2 : heap)
  (n : nat) (e : error) :
  (forall b, In b (writer_locs source) -> b ∈ dom h) ->
  NewWriterLoader source h = ((l, w), h0) ->
  write_all w ps h0 = (None, h1) ->
  Write w p h1 = ((n, Some e), h2) ->
  JsonSource l h2 = Str (string_of (concat ps)) /\
  ((Write source p h1).1 = (n, Some e) \/
   (Write source p h1).1 = (n, None) /\ n <> length p /\ e = ErrShortWrite).
Proof.
  intros Hwf Hnew Hall Hw.
  destruct (NewWriterLoader_captures _ _ _ _ _ _ _ Hwf Hnew Hall) as [-> Hcap].
  injection Hnew as <- <-.
  assert (Hfresh : ~ In (fresh h) (writer_locs source)).
  { intros Hin. apply Hwf in Hin. exact (is_fresh (dom h) Hin). }
  destruct (MultiWriter_write_error _ _ _ _ _ _ _ Hfresh Hw) as [Hbuf Horig].
  split; [|done]. cbn [JsonSource]. unfold Buffer_String. by rewrite Hbuf, Hcap.
Qed.

(** X4: the duplicating writer writes the caller's writer as a direct
    write does: every buffer but the loader's own ends up as after a write
    to the caller's writer alone, and the write succeeds exactly when the
    caller's writer takes all the bytes without error. *)
Theorem duplicating_writer_is_transparent (source : writer) (p : list byte) (h : heap)
  (buf : nat) :
  ~ In buf (writer_locs source) ->
  (forall b, b <> buf ->
     (Write (MultiWriter [source; BufferWriter buf]) p h).2 !! b =
       (Write source p h).2 !! b) /\
  ((Write (MultiWriter [source; BufferWriter buf]) p h).1 = (length p, None) <->
   (Write source p h).1 = (length p, None)) /\
  ((Write (MultiWriter [source; BufferWriter buf]) p h).1.2 = None ->
   (Write (MultiWriter [source; BufferWriter buf]) p h).1.1 = length p).
Proof.
  intros Hb. cbn [Write].
  destruct (Write source p h) as [[n1 e1] h'] eqn:Es.
  destruct e1 as [e1|]; simpl.
  { repeat split; try done. }
  destruct (Nat.eqb_spec n1 (length p)) as [->|Hne]; simpl.
  - rewrite Nat.eqb_refl. simpl. repeat split; try done.
    intros b Hne. by rewrite lookup_insert_ne.
  - repeat split; try done; intros [=]; done.
Qed.

(** X5: the Text, Binary and Native-value loaders agree: a Text loader
    decodes as the Binary loader of the bytes of its string, a Native-value
    loader as the Binary loader of the bytes its value serializes to, and
    what a Binary loader decodes does not depend on the store. *)
Theorem decoding_strategies_agree (s : string) (h h' : heap) :
  LoadJSON (NewStringLoader s) h = LoadJSON (NewBytesLoader (bytes_of s)) h /\
  (forall v, Marshal v = (bytes_of s, None) ->
     LoadJSON (NewGoLoader v) h = LoadJSON (NewBytesLoader (bytes_of s)) h) /\
  (LoadJSON (NewBytesLoader (bytes_of s)) h').1 = (LoadJSON (NewBytesLoader (bytes_of s)) h).1.
Proof.
  unfold NewStringLoader, NewBytesLoader, NewGoLoader.
  rewrite LoadJSON_string, !LoadJSON_bytes. split; [done|]. split; [|done].
  intros v Hv. by rewrite LoadJSON_go, Hv.
Qed.

(** X6: decode() never returns a document together with an error: when the
    error is not nil the document is nil, for every loader. *)
Theorem error_means_no_document (l : JSONLoader) (h h' : heap) (v : any) (e : error) :
  LoadJSON l h = ((v, Some e), h') -> v = Nil.
Proof.
  assert (Hd : forall r, decodeJSONUsingNumber r h = ((v, Some e), h') -> v = Nil).
  { intros r. unfold decodeJSONUsingNumber.
    destruct (Decode (NewDecoder r) h) as [[[doc [e0|]] dec] h0]; by intros [= <- _ _]. }
  destruct l; simpl; try apply Hd; try (by intros [= <- _ _]).
  destruct (Marshal source) as [jsonBytes [e0|]]; [by intros [= <- _ _]|apply Hd].
Qed.

End MoreOfTheLoaders.

Lemma scan_step_ok s c :
  scanner_ok s ->
  scanner_ok (scan_step s c).1 /\
  ((scan_step s c).2 = scanError -> is_syntax (err (scan_step s c).1)).
Proof.
  unfold scanner_ok. intros Hok. unfold scan_step.
  destruct (step s) eqn:Est;
    unfold do_stateBeginValue, do_stateBeginString, do_state0, do_stateESign,
      hex_step, expect, do_stateEndValue, do_stateEndTop, pushParseState,
      popParseState, scanner_error, set_step, set_top, set_parseState;
    repeat case_match; simpl; split; intros; try done; try congruence; auto.
Qed.

Lemma do_stateEndValue_ok s c : scanner_ok s -> scanner_ok (do_stateEndValue s c).1.
Proof.
  unfold scanner_ok. intros Hok.
  unfold do_stateEndValue, do_stateEndTop, popParseState, scanner_error, set_step,
    set_top, set_parseState.
  repeat case_match; simpl; intros; try done; try congruence; auto.
Qed.

(** The error a scan stops with is a syntax error. *)
Lemma scan_buffered_err u : forall s i s',
  scanner_ok s -> scan_buffered s u i = ScanErr s' -> is_syntax (err s').
Proof.
  induction u as [|c u IH]; intros s i s' Hok; simpl; [done|].
  assert (Hb : scanner_ok (bump s 1)) by exact Hok.
  destruct (scan_step_ok (bump s 1) c Hb) as [Hok1 Herr].
  destruct (scan_step (bump s 1) c) as [s1 op]. simpl in *.
  destruct op; try (by apply IH); try done.
  - pose proof (do_stateEndValue_ok s1 " "%char Hok1) as Hok2.
    destruct (do_stateEndValue s1 " "%char) as [s2 op']. simpl in *.
    destruct (opcode_eqb op' scanEnd); [done|]. by apply IH.
  - pose proof (do_stateEndValue_ok s1 " "%char Hok1) as Hok2.
    destruct (do_stateEndValue s1 " "%char) as [s2 op']. simpl in *.
    destruct (opcode_eqb op' scanEnd); [done|]. by apply IH.
  - intros [= <-]. by apply Herr.
Qed.

Lemma scan_blank u : forall b i,
  blank u = true ->
  scan_buffered (mkScanner stateBeginValue false [] None b) u i =
    ScanMore (i + length u)
      (mkScanner stateBeginValue false [] None (b + Z.of_nat (length u))).
Proof.
  induction u as [|c u IH]; intros b i Hu.
  - simpl. by rewrite Z.add_0_r, Nat.add_0_r.
  - simpl in Hu. apply andb_true_iff in Hu as [Hc Hu].
    cbn [scan_buffered]. unfold bump, scan_step, do_stateBeginValue.
    cbn [step endTop parseState err bytes]. rewrite Hc.
    rewrite IH by done. cbn [length].
    replace (b + 1 + Z.of_nat (length u))%Z with (b + Z.of_nat (S (length u)))%Z by lia.
    by replace (S i + length u) with (i + S (length u)) by lia.
Qed.

Lemma nonSpace_blank u : nonSpace u = negb (blank u).
Proof.
  unfold nonSpace, blank. induction u as [|c u IH]; [done|].
  simpl. rewrite IH. by destruct (isSpace c).
Qed.

Lemma unmarshal_not_EOF d : (unmarshal d).2 <> Some EOF.
Proof. unfold unmarshal. cbv zeta. by destruct (valueInterface _ _) as [[v d']|]. Qed.

Lemma decode_value_not_EOF d :
  (match unmarshal d with
   | (_, Some e) => (Nil, Some e)
   | (v, None) => (v, None)
   end).2 = Some EOF -> False.
Proof.
  pose proof (unmarshal_not_EOF d) as H.
  destruct (unmarshal d) as [v [e|]]; simpl in *; [congruence|done].
Qed.

(** The decoder fails with io.EOF on blank input, and on no other. *)
Lemma decode_bytes_EOF u : (decode_bytes u).2 = Some EOF <-> blank u = true.
Proof.
  unfold decode_bytes, readValue_bytes. split.
  - destruct (scan_buffered new_scanner u 0) as [n s|s|n s] eqn:E.
    + intros H. by apply decode_value_not_EOF in H.
    + apply scan_buffered_err in E; [|done]. simpl.
      destruct (err s) as [[]|]; done.
    + destruct (opcode_eqb _ _).
      * intros H. by apply decode_value_not_EOF in H.
      * rewrite nonSpace_blank. by destruct (blank u).
  - intros Hu. unfold new_scanner. rewrite scan_blank by done.
    cbn. rewrite nonSpace_blank, Hu. done.
Qed.

Lemma literalInterface_canonical d v d' :
  literalInterface d = Some (v, d') -> canonical v.
Proof.
  unfold literalInterface.
  destruct (slice _ _ _) as [|c item]; [done|].
  repeat case_match; intros; simplify_eq; constructor.
Qed.

Lemma interfaces_canonical fuel :
  (forall d v d', valueInterface fuel d = Some (v, d') -> canonical v) /\
  (forall acc d l d', arrayInterface fuel acc d = Some (l, d') ->
     Forall canonical acc -> Forall canonical l) /\
  (forall m d m' d', objectInterface fuel m d = Some (m', d') ->
     (forall k v, m !! k = Some v -> canonical v) ->
     (forall k v, m' !! k = Some v -> canonical v)).
Proof.
  induction fuel as [|fuel (IHv & IHa & IHo)]; [by repeat split|].
  split; [|split].
  - intros d v d'. rewrite valueInterface_S. destruct (opcode_ d); try done.
    + apply literalInterface_canonical.
    + destruct (objectInterface fuel ∅ d) as [[m d1]|] eqn:Eo; [|done].
      intros [= <- <-]. constructor. apply (IHo _ _ _ _ Eo). intros k v. by rewrite lookup_empty.
    + destruct (arrayInterface fuel [] d) as [[l d1]|] eqn:Ea; [|done].
      intros [= <- <-]. constructor. by apply (IHa _ _ _ _ Ea).
  - intros acc d l d'. rewrite arrayInterface_S. cbv zeta.
    destruct (opcode_eqb _ scanEndArray); [by intros [= <- <-]|].
    destruct (valueInterface fuel _) as [[x d1]|] eqn:Ev; [|done].
    apply IHv in Ev. intros Hres Hacc.
    assert (Hacc' : Forall canonical (acc ++ [x])).
    { apply Forall_app. split; [done|]. by constructor. }
    destruct (opcode_eqb _ scanEndArray); [by injection Hres as <- <-|].
    destruct (opcode_eqb _ scanArrayValue); [|done].
    by apply (IHa _ _ _ _ Hres).
  - intros m d m' d'. rewrite objectInterface_S. cbv zeta.
    destruct (opcode_eqb _ scanEndObject); [by intros [= <- <-]|].
    destruct (negb _); [done|]. destruct (unquote _) as [key|]; [|done].
    destruct (negb _); [done|].
    destruct (valueInterface fuel _) as [[x d1]|] eqn:Ev; [|done].
    apply IHv in Ev. intros Hres Hm.
    assert (Hm' : forall k v, <[key:=x]> m !! k = Some v -> canonical v).
    { intros k v. rewrite lookup_insert. case_decide; [by intros [= <-]|apply Hm]. }
    destruct (opcode_eqb _ scanEndObject); [by injection Hres as <- <-|].
    destruct (opcode_eqb _ scanObjectValue); [|done].
    by apply (IHo _ _ _ _ Hres).
Qed.

Lemma decode_bytes_canonical u : canonical (decode_bytes u).1.
Proof.
  unfold decode_bytes. destruct (readValue_bytes _ _ _ _) as [n [e|]]; [constructor|].
  unfold unmarshal. cbv zeta.
  destruct (valueInterface _ _) as [[v d]|] eqn:Ev; simpl; [|constructor].
  by apply (proj1 (interfaces_canonical _)) in Ev.
Qed.

Section ShapeOfDocuments.

Variable Marshal : any -> list byte * option error.

Abbreviation LoadJSON := (LoadJSON Marshal).

(** X8: the document of a Location, Text, Binary, Native-value or
    Streaming loader is a canonical JSON value through and through: nil,
    a boolean, a json.Number, a string, or a slice or map of such values;
    whatever the native value held (integers, byte slices), none of it
    comes back as it was. Only the Pre-decoded loader returns other
    values, namely the one it was given. *)
Theorem documents_are_canonical (l : JSONLoader) (h : heap) :
  strategy_of l <> PreDecoded -> canonical (LoadJSON l h).1.1.
Proof.
  destruct l; intros Hl; try done.
  - constructor.
  - rewrite LoadJSON_string. apply decode_bytes_canonical.
  - rewrite LoadJSON_bytes. apply decode_bytes_canonical.
  - rewrite LoadJSON_go. destruct (Marshal source) as [b [e|]]; [constructor|].
    apply decode_bytes_canonical.
  - destruct (LoadJSON_io Marshal buf h) as (c & r & -> & _). apply decode_bytes_canonical.
Qed.


(** X10: the factory of any loader builds location-based loaders: for
    every loader and every string, the sibling loader has that string as
    its source, decodes to a nil document with a nil error, takes its
    reference from the string, and its own factory is the filesystem
    one. *)
Theorem sibling_loaders_are_location_based (l : JSONLoader) (source : string) (h : heap)
  (JsonReferenceT : Type) (NewJsonReference : string -> JsonReferenceT * option error) :
  New (LoaderFactory l) source = NewReferenceLoader source /\
  JsonSource (New (LoaderFactory l) source) h = Str source /\
  LoadJSON (New (LoaderFactory l) source) h = ((Nil, None), h) /\
  JsonReference JsonReferenceT NewJsonReference (New (LoaderFactory l) source) =
    NewJsonReference source /\
  LoaderFactory (New (LoaderFactory l) source) = FileSystemJSONLoaderFactory.
Proof. by destruct l. Qed.

End ShapeOfDocuments.

(** Where a space ends the top-level value, every whitespace byte does,
    whatever the count of bytes read. *)
Lemma scan_step_space_ends s c k :
  isSpace c = true ->
  (scan_step s " "%char).2 = scanEnd ->
  (scan_step (bump s k) c).2 = scanEnd.
Proof.
  intros Hc.
  destruct c as [[] [] [] [] [] [] [] []]; try discriminate Hc; clear Hc;
    unfold scan_step, bump; cbn [step endTop parseState err bytes];
    destruct (step s);
    unfold do_stateBeginValue, do_stateBeginString, do_state0, do_stateESign,
      hex_step, expect, do_stateEndValue, do_stateEndTop, pushParseState,
      popParseState, scanner_error, set_step, set_top, set_parseState;
    cbn [step endTop parseState err bytes]; simpl;
    repeat case_match; simpl; intros; try done; try congruence.
Qed.

(** Whitespace after a text that decodes changes nothing. *)
Lemma decode_bytes_trailing_space t ws v :
  blank ws = true ->
  decode_bytes t = (v, None) ->
  decode_bytes (t ++ ws) = (v, None).
Proof.
  intros Hws. destruct ws as [|c ws]; [by rewrite app_nil_r|].
  simpl in Hws. apply andb_true_iff in Hws as [Hc _].
  unfold decode_bytes, readValue_bytes. rewrite scan_buffered_app.
  destruct (scan_buffered new_scanner t 0) as [n s|s|n s] eqn:E.
  - apply scan_buffered_end in E. rewrite firstn_app.
    replace (n - length t) with 0 by lia. simpl. by rewrite app_nil_r.
  - by destruct (err s).
  - apply scan_buffered_more in E. simpl in E. subst n.
    destruct (opcode_eqb (scan_step s " "%char).2 scanEnd) eqn:Eop; [|done].
    assert (Hend : (scan_step s " "%char).2 = scanEnd).
    { by destruct (scan_step s " "%char).2. }
    pose proof (scan_step_space_ends s c 1 Hc Hend) as Hc1.
    cbn [scan_buffered]. destruct (scan_step (bump s 1) c) as [s1 op].
    simpl in Hc1. subst op.
    rewrite firstn_app, Nat.sub_diag, firstn_all. simpl. by rewrite app_nil_r.
Qed.

Section TrailingSpace.

Variable Marshal : any -> list byte * option error.

Abbreviation LoadJSON := (LoadJSON Marshal).

(** X11: whitespace after a text that decodes is of no account: when a
    Binary or Text loader decodes a text without error, the loader of that
    text followed by any run of spaces, tabs and line ends decodes to the
    same document. *)
Theorem trailing_whitespace_is_ignored (t ws : list byte) (v : any) (h : heap) :
  blank ws = true ->
  (LoadJSON (NewBytesLoader t) h).1 = (v, None) ->
  LoadJSON (NewBytesLoader (t ++ ws)) h = ((v, None), h) /\
  LoadJSON (NewStringLoader (string_of (t ++ ws))) h = ((v, None), h).
Proof.
  unfold NewBytesLoader, NewStringLoader.
  rewrite LoadJSON_string, !LoadJSON_bytes, bytes_of_string_of. cbn [fst].
  intros Hws Ht. by rewrite (decode_bytes_trailing_space t ws v Hws Ht).
Qed.

End TrailingSpace.

Lemma number_next_step st c st' b :
  number_next st c = Some st' ->
  exists op,
    scan_step (mkScanner st false [] None b) c = (mkScanner st' false [] None b, op) /\
    (op = scanContinue \/ op = scanBeginLiteral) /\
    (st = stateBeginValue -> op = scanBeginLiteral) /\
    isNumberByte c = true.
Proof.
  destruct st; try done;
    destruct c as [[] [] [] [] [] [] [] []]; try done;
    intros [= <-]; eexists; (split; [reflexivity|]); repeat split; auto; done.
Qed.

Lemma scan_number_run u : forall st st' b i,
  number_run st u = Some st' ->
  scan_buffered (mkScanner st false [] None b) u i =
    ScanMore (i + length u) (mkScanner st' false [] None (b + Z.of_nat (length u))) /\
  forallb isNumberByte u = true.
Proof.
  induction u as [|c u IH]; intros st st' b i.
  - intros [= <-]. simpl. by rewrite Z.add_0_r, Nat.add_0_r.
  - cbn [number_run]. destruct (number_next st c) as [st1|] eqn:En; [|done].
    intros Hrun.
    destruct (number_next_step st c st1 (b + 1) En) as (op & Hstep & Hop & _ & Hc).
    destruct (IH st1 st' (b + 1)%Z (S i) Hrun) as [Hscan Hall].
    split; [|by simpl; rewrite Hc, Hall].
    cbn [scan_buffered]. unfold bump. cbn [step endTop parseState err bytes].
    rewrite Hstep.
    replace (b + Z.of_nat (length (c :: u)))%Z with (b + 1 + Z.of_nat (length u))%Z
      by (cbn [length]; lia).
    replace (i + length (c :: u)) with (S i + length u) by (cbn [length]; lia).
    by destruct Hop as [-> | ->].
Qed.

Lemma number_done_ends st b :
  number_done st = true ->
  (scan_step (mkScanner st false [] None b) " "%char).2 = scanEnd.
Proof. by destruct st. Qed.

(** Digits keep the scanner where it is, in the three states that loop. *)
Lemma number_run_digits st u :
  st = state1 \/ st = stateDot0 \/ st = stateE0 ->
  number_run st u = number_run st (skip_digits u).
Proof.
  intros Hst. induction u as [|c u IH]; [done|].
  cbn [skip_digits]. destruct (isDigit c) eqn:Ec; [|done].
  cbn [number_run]. rewrite <- IH.
  destruct Hst as [-> | [-> | ->]]; simpl; by rewrite Ec.
Qed.

Lemma skip_digits_nil_cons c u : skip_digits (c :: u) = [] -> isDigit c = true /\ skip_digits u = [].
Proof. simpl. by destruct (isDigit c). Qed.

Lemma byte_eqb_true a b : byte_eqb a b = true -> a = b.
Proof. apply Ascii.eqb_eq. Qed.

Lemma isValidNumber_parts s :
  isValidNumber s =
    match s with
    | [] => false
    | c0 :: t0 => unsigned_ok (if byte_eqb c0 "-"%char then t0 else s)
    end.
Proof. destruct s as [|c0 t0]; [done|]. reflexivity. Qed.

Lemma exponent_run st s3 :
  st = state0 \/ st = state1 \/ st = stateDot0 ->
  exponent_ok s3 = true ->
  exists st', number_run st s3 = Some st' /\ number_done st' = true.
Proof.
  intros Hst. unfold exponent_ok.
  destruct s3 as [|e [|x t']].
  - intros _. exists st. split; [done|]. by destruct Hst as [-> | [-> | ->]].
  - done.
  - destruct (byte_eqb e "e"%char || byte_eqb e "E"%char) eqn:Ee; [|done].
    assert (He : number_next st e = Some stateE).
    { apply orb_true_iff in Ee as [Ee|Ee]; apply byte_eqb_true in Ee; subst e;
        by destruct Hst as [-> | [-> | ->]]. }
    cbn [number_run]. rewrite He. clear He Ee e.
    destruct (byte_eqb x "+"%char || byte_eqb x "-"%char) eqn:Ex.
    + assert (Hx : number_next stateE x = Some stateESign) by (by simpl; rewrite Ex).
      rewrite Hx. destruct t' as [|d t'']; [done|].
      destruct (skip_digits (d :: t'')) eqn:Es; [|done]. intros _.
      apply skip_digits_nil_cons in Es as [Hd Ht].
      cbn [number_run]. simpl number_next. rewrite Hd.
      rewrite (number_run_digits stateE0 t'') by auto. rewrite Ht.
      by exists stateE0.
    + destruct (skip_digits (x :: t')) eqn:Es; [|done]. intros _.
      apply skip_digits_nil_cons in Es as [Hd Ht].
      assert (Hx : number_next stateE x = Some stateE0) by (by simpl; rewrite Ex, Hd).
      rewrite Hx, (number_run_digits stateE0 t') by auto. rewrite Ht.
      by exists stateE0.
Qed.

Lemma fraction_run st s2 :
  st = state0 \/ st = state1 ->
  fraction_ok s2 = true ->
  exists st', number_run st s2 = Some st' /\ number_done st' = true.
Proof.
  intros Hst. unfold fraction_ok.
  assert (Hno : exponent_ok s2 = true ->
                exists st', number_run st s2 = Some st' /\ number_done st' = true).
  { apply exponent_run. tauto. }
  destruct s2 as [|p [|d t']]; try exact Hno.
  destruct (byte_eqb p "."%char && isDigit d) eqn:Ep; [|exact Hno].
  apply andb_true_iff in Ep as [Ep Hd]. apply byte_eqb_true in Ep. subst p.
  intros Hexp. cbn [number_run].
  assert (Hp : number_next st "."%char = Some stateDot) by (by destruct Hst as [-> | ->]).
  rewrite Hp. simpl number_next. rewrite Hd.
  rewrite (number_run_digits stateDot0 t') by auto.
  apply exponent_run; auto.
Qed.

Lemma unsigned_run st c t :
  number_next st c =
    (if byte_eqb c "0"%char then Some state0
     else if isDigit19 c then Some state1 else None) ->
  unsigned_ok (c :: t) = true ->
  exists st', number_run st (c :: t) = Some st' /\ number_done st' = true.
Proof.
  intros Hnext. unfold unsigned_ok. cbn [number_run]. rewrite Hnext.
  destruct (byte_eqb c "0"%char).
  - apply fraction_run. by left.
  - destruct (isDigit19 c); [|done].
    rewrite (number_run_digits state1 t) by auto. apply fraction_run. by right.
Qed.

(** A literal [isValidNumber] accepts takes the scanner from the beginning
    of a value to the end of a number. *)
Lemma isValidNumber_run ds :
  isValidNumber ds = true ->
  exists st', number_run stateBeginValue ds = Some st' /\ number_done st' = true.
Proof.
  rewrite isValidNumber_parts. destruct ds as [|c0 t0]; [done|].
  destruct (byte_eqb c0 "-"%char) eqn:Em.
  - apply byte_eqb_true in Em. subst c0. destruct t0 as [|c t]; [done|].
    intros H. change (number_run stateBeginValue ("-"%char :: c :: t))
      with (number_run stateNeg (c :: t)).
    by apply unsigned_run.
  - apply unsigned_run. simpl. by rewrite Em.
Qed.

Lemma rescan_number_all bs : forall i,
  forallb isNumberByte bs = true -> rescan_number bs i = i + length bs.
Proof.
  induction bs as [|c bs IH]; intros i H; simpl in *; [lia|].
  apply andb_true_iff in H as [-> H]. rewrite IH by done. lia.
Qed.

Lemma number_first_facts c st :
  number_next stateBeginValue c = Some st ->
  (in_range "0" "9" c || byte_eqb c "-")%char = true /\ byte_eqb c DQ = false /\
  byte_eqb c "n"%char = false /\ byte_eqb c "t"%char = false /\
  byte_eqb c "f"%char = false.
Proof. destruct c as [[] [] [] [] [] [] [] []]; try done; by vm_compute. Qed.

(** [literalInterface] at a number that is all of the data. *)
Lemma literalInterface_number c t s0 st :
  number_next stateBeginValue c = Some st ->
  forallb isNumberByte t = true ->
  literalInterface (mkDecodeState (c :: t) 1 scanBeginLiteral s0) =
    Some (Number (string_of (c :: t)),
          mkDecodeState (c :: t) (S (S (length t))) scanEnd s0).
Proof.
  intros Hc Ht. destruct (number_first_facts c st Hc) as (Hn & Hq & H1 & H2 & H3).
  assert (Hresc : rescanLiteral (mkDecodeState (c :: t) 1 scanBeginLiteral s0) =
                  mkDecodeState (c :: t) (S (S (length t))) scanEnd s0).
  { unfold rescanLiteral. cbn [data off scan Nat.sub lookup list_lookup].
    rewrite Hq, Hn. cbn [skipn]. rewrite rescan_number_all by done.
    replace ((c :: t) !! (1 + length t)) with (@None byte); [done|].
    symmetry. apply lookup_ge_None. simpl. lia. }
  unfold literalInterface. rewrite Hresc. unfold readIndex. cbn [data off].
  assert (Hitem : slice (c :: t) (1 - 1) (S (S (length t)) - 1) = c :: t).
  { unfold slice. simpl. by rewrite firstn_all. }
  rewrite Hitem, H1, H2, H3, Hq. cbn [orb].
  destruct (byte_eqb c "-"%char), (in_range "0"%char "9"%char c); done.
Qed.

(** A text that is one number literal decodes to the json.Number of the
    literal. *)
Lemma decode_bytes_number ds :
  isValidNumber ds = true -> decode_bytes ds = (Number (string_of ds), None).
Proof.
  intros Hv. destruct (isValidNumber_run ds Hv) as (st' & Hrun & Hdone).
  destruct ds as [|c t]; [by injection Hrun as <-|].
  destruct (scan_number_run (c :: t) stateBeginValue st' 0 0 Hrun) as [Hscan Hall].
  unfold decode_bytes, readValue_bytes, new_scanner. rewrite Hscan.
  rewrite (number_done_ends st' _ Hdone). cbn [opcode_eqb Nat.add].
  rewrite firstn_all.
  cbn [number_run] in Hrun.
  destruct (number_next stateBeginValue c) as [st1|] eqn:Ec; [|done].
  destruct (number_next_step stateBeginValue c st1 0 Ec) as (op & Hstep & _ & Hop & _).
  rewrite (Hop eq_refl) in Hstep.
  simpl in Hall. apply andb_true_iff in Hall as [_ Hall].
  unfold unmarshal. cbv zeta.
  assert (Hsw : scanWhile
                  (mkDecodeState (data (decodeState_init (c :: t)))
                     (off (decodeState_init (c :: t)))
                     (opcode_ (decodeState_init (c :: t)))
                     (scanner_reset (scan (decodeState_init (c :: t))))) scanSkipSpace
                = mkDecodeState (c :: t) 1 scanBeginLiteral (mkScanner st1 false [] None 0)).
  { unfold scanWhile. cbn [decodeState_init data off opcode_ scan skipn scanWhile_loop].
    change (scanner_reset new_scanner) with (mkScanner stateBeginValue false [] None 0).
    by rewrite Hstep. }
  rewrite Hsw. cbn [data].
  replace (2 * length (c :: t) + 1) with (S (2 * length (c :: t))) by lia.
  rewrite valueInterface_S. cbn [opcode_].
  by rewrite (literalInterface_number c t _ st1 Ec Hall).
Qed.

Section TextsAndErrors.

Variable Marshal : any -> list byte * option error.

Abbreviation LoadJSON := (LoadJSON Marshal).
Abbreviation decoder_input := (decoder_input Marshal).

(** X7: a Text, Binary, Native-value or Streaming loader fails with io.EOF
    exactly when the text handed to the decoder is empty or nothing but
    whitespace; every other failure is another error. *)
Theorem EOF_exactly_on_blank_text (l : JSONLoader) (h : heap) (text : list byte) :
  decoder_input l h = Some text ->
  (LoadJSON l h).1.2 = Some EOF <-> blank text = true.
Proof.
  intros Hin. rewrite (LoadJSON_decoder_input Marshal l h text Hin).
  apply decode_bytes_EOF.
Qed.

(** X12: a text that is one JSON number literal, with or without sign,
    fraction and exponent and of any length, decodes to the json.Number
    holding exactly that literal, by each loader that decodes. *)
Theorem number_literals_decode_exactly (l : JSONLoader) (h : heap) (text : list byte) :
  decoder_input l h = Some text ->
  isValidNumber text = true ->
  (LoadJSON l h).1 = (Number (string_of text), None).
Proof.
  intros Hin Hv. rewrite (LoadJSON_decoder_input Marshal l h text Hin).
  by apply decode_bytes_number.
Qed.

End TextsAndErrors.

(** ** The further properties at work *)

Lemma reader_loader_captures_witness :
  (read_seq (TeeReader (StringsReader (quoted "{'a':1}")) 0) [4; 10; 10] {[ 0 := [] ]}).1.1 =
    (read_seq (StringsReader (quoted "{'a':1}")) [4; 10; 10] ∅).1.1 /\
  JsonSource (jsonIOLoader 0)
    (read_seq (TeeReader (StringsReader (quoted "{'a':1}")) 0) [4; 10; 10] {[ 0 := [] ]}).2 =
    Str (string_of (delivered (read_seq (StringsReader (quoted "{'a':1}")) [4; 10; 10] ∅).1.1)) /\
  (LoadJSON Marshal_plain (jsonIOLoader 0)
     (read_seq (TeeReader (StringsReader (quoted "{'a':1}")) 0) [4; 10; 10] {[ 0 := [] ]}).2).1 =
    decode_bytes (delivered (read_seq (StringsReader (quoted "{'a':1}")) [4; 10; 10] ∅).1.1).
Proof.
  apply (reader_loader_captures Marshal_plain (StringsReader (quoted "{'a':1}"))
           [4; 10; 10] ∅ (jsonIOLoader 0)
           (TeeReader (StringsReader (quoted "{'a':1}")) 0) {[ 0 := [] ]}).
  - intros b [].
  - vm_compute. reflexivity.
Defined.

Lemma failed_write_captures_nothing_witness :
  JsonSource (jsonIOLoader 0) {[ 0 := quoted "[1," ]} =
    Str (string_of (concat [quoted "[1,"])) /\
  ((Write (LimitedWriter 4) (quoted "2,3,4]") {[ 0 := quoted "[1," ]}).1 =
     (4, Some ErrShortWrite) \/
   (Write (LimitedWriter 4) (quoted "2,3,4]") {[ 0 := quoted "[1," ]}).1 = (4, None) /\
   4 <> length (quoted "2,3,4]") /\ ErrShortWrite = ErrShortWrite).
Proof.
  apply (failed_write_captures_nothing (LimitedWriter 4) [quoted "[1,"] (quoted "2,3,4]") ∅
           (jsonIOLoader 0) (MultiWriter [LimitedWriter 4; BufferWriter 0])
           {[ 0 := [] ]} {[ 0 := quoted "[1," ]} {[ 0 := quoted "[1," ]} 4 ErrShortWrite).
  - intros b [].
  - vm_compute. reflexivity.
  - vm_compute. reflexivity.
  - vm_compute. reflexivity.
Defined.

Lemma duplicating_writer_is_transparent_witness :
  (forall b, b <> 1 ->
     (Write (MultiWriter [BufferWriter 0; BufferWriter 1]) (quoted "{}") ∅).2 !! b =
       (Write (BufferWriter 0) (quoted "{}") ∅).2 !! b) /\
  ((Write (MultiWriter [BufferWriter 0; BufferWriter 1]) (quoted "{}") ∅).1 =
     (length (quoted "{}"), None) <->
   (Write (BufferWriter 0) (quoted "{}") ∅).1 = (length (quoted "{}"), None)) /\
  ((Write (MultiWriter [BufferWriter 0; BufferWriter 1]) (quoted "{}") ∅).1.2 = None ->
   (Write (MultiWriter [BufferWriter 0; BufferWriter 1]) (quoted "{}") ∅).1.1 =
     length (quoted "{}")).
Proof.
  apply (duplicating_writer_is_transparent (BufferWriter 0) (quoted "{}") ∅ 1).
  intros [H|[]]. discriminate H.
Defined.

Lemma error_means_no_document_witness :
  LoadJSON Marshal_plain (NewBytesLoader (quoted "{'a':")) ∅ =
    ((Nil, Some ErrUnexpectedEOF), ∅) /\
  Nil = Nil.
Proof.
  split.
  - vm_compute. reflexivity.
  - apply (error_means_no_document Marshal_plain (NewBytesLoader (quoted "{'a':")) ∅ ∅
             Nil ErrUnexpectedEOF).
    vm_compute. reflexivity.
Defined.

Lemma EOF_exactly_on_blank_text_witness :
  (LoadJSON Marshal_plain (NewBytesLoader (quoted "  ")) ∅).1.2 = Some EOF <->
  blank (quoted "  ") = true.
Proof.
  apply (EOF_exactly_on_blank_text Marshal_plain (NewBytesLoader (quoted "  ")) ∅).
  reflexivity.
Defined.

Lemma documents_are_canonical_witness :
  canonical (LoadJSON Marshal_plain (NewGoLoader (Slice [Int 1; Bool true])) ∅).1.1.
Proof.
  apply (documents_are_canonical Marshal_plain (NewGoLoader (Slice [Int 1; Bool true])) ∅).
  discriminate.
Defined.

Lemma trailing_whitespace_is_ignored_witness :
  LoadJSON Marshal_plain (NewBytesLoader (quoted "{'a':1}" ++ [" "; "010"]%char)) ∅ =
    ((Map {[ "a" := Number "1" ]}, None), ∅) /\
  LoadJSON Marshal_plain
    (NewStringLoader (string_of (quoted "{'a':1}" ++ [" "; "010"]%char))) ∅ =
    ((Map {[ "a" := Number "1" ]}, None), ∅).
Proof.
  apply (trailing_whitespace_is_ignored Marshal_plain (quoted "{'a':1}") [" "; "010"]%char).
  - reflexivity.
  - vm_compute. reflexivity.
Defined.

Lemma number_literals_decode_exactly_witness :
  (LoadJSON Marshal_plain (NewBytesLoader (quoted "-12.50e+3")) ∅).1 =
    (Number (string_of (quoted "-12.50e+3")), None).
Proof.
  apply (number_literals_decode_exactly Marshal_plain (NewBytesLoader (quoted "-12.50e+3")) ∅).
  - reflexivity.
  - reflexivity.
Defined.
